(** * obspy.core.util.decorator: keyword remapping and transparent decompression

    A shallow embedding of two decorators of [obspy/core/util/decorator.py]:

    - [deprecated_keywords] (module [Keywords]): the conflict check and the
      renaming loop over the keyword arguments of a call;
    - [uncompress_file] (module [Uncompress]): format sniffing, extraction of
      the payloads of an archive, replay of every payload through the wrapped
      reader on a temporary file, and the merge of the results.

    Python dictionaries that the code iterates over are association lists in
    insertion order; the keyword arguments that [uncompress_file] only pops
    from and forwards are a [gmap].  Effects (temporary files, reader calls,
    probes of the file system) are threaded through a small state, trace and
    error monad. *)

From Stdlib Require Import Strings.String Strings.Ascii Strings.Byte ZArith List Bool Lia.
From stdpp Require Import base option list gmap strings.

Local Open Scope string_scope.
Local Open Scope list_scope.

(** ** Python values shared by both decorators *)

(** [bytes] objects. *)
Definition bytes := list byte.

(** Values that travel in [*args] and [**kwargs]. *)
Inductive pyval :=
| PyNone
| PyBool (b : bool)
| PyInt (z : Z)
| PyStr (s : string).

(** Truth value testing, as [if not x] applies it. *)
Definition truthy (v : pyval) : bool :=
  match v with
  | PyNone => false
  | PyBool b => b
  | PyInt z => negb (z =? 0)%Z
  | PyStr s => negb (String.eqb s "")
  end.

(** [s.endswith(suffix)] *)
Definition endswith (s suffix : string) : bool :=
  let n := String.length s in
  let m := String.length suffix in
  Nat.leb m n && String.eqb (substring (n - m) m s) suffix.

(** [needle in haystack] on [bytes]. *)
Fixpoint starts_with (needle haystack : bytes) : bool :=
  match needle, haystack with
  | [], _ => true
  | _ :: _, [] => false
  | a :: needle', b :: haystack' => Byte.eqb a b && starts_with needle' haystack'
  end.

Fixpoint bytes_contains (needle haystack : bytes) : bool :=
  starts_with needle haystack ||
  match haystack with
  | [] => false
  | _ :: haystack' => bytes_contains needle haystack'
  end.

Module Keywords.

(** ** Dictionaries in insertion order *)

Section Dict.

Context {V : Type}.

(** A [dict] with [str] keys: the items in insertion order, one per key. *)
Definition dict := list (string * V).

(** [d.get(k)] *)
Fixpoint dget (k : string) (d : dict) : option V :=
  match d with
  | [] => None
  | (k', v) :: d' => if String.eqb k k' then Some v else dget k d'
  end.

(** [k in d] *)
Definition dmem (k : string) (d : dict) : bool :=
  match dget k d with
  | Some _ => true
  | None => false
  end.

(** [d[k] = v]: an existing key keeps its place, a new one goes last. *)
Fixpoint dset (k : string) (v : V) (d : dict) : dict :=
  match d with
  | [] => [(k, v)]
  | (k', v') :: d' =>
      if String.eqb k k' then (k', v) :: d' else (k', v') :: dset k v d'
  end.

(** [del d[k]], for a key that is there. *)
Definition ddel (k : string) (d : dict) : dict :=
  List.filter (λ item, negb (String.eqb k (fst item))) d.

(** [list(d)] *)
Definition dkeys (d : dict) : list string := map fst d.

End Dict.

Arguments dict : clear implicits.

Inductive exn :=
| Exception (msg : string)
| KeyError (key : string)
| NameError (name : string).

(** [str(x)] for a value that is a [str] or [None]. *)
Definition str (x : option string) : string :=
  match x with
  | Some s => s
  | None => "None"
  end.

(** The three message templates of [fdec], applied to their arguments. *)
Definition msg (kw fname nkw : string) : string :=
  "Deprecated keyword " +:+ kw +:+ " in " +:+ fname +:+
  "() call - please use " +:+ nkw +:+ " instead.".

Definition msg2 (kw fname : string) : string :=
  "Deprecated keyword " +:+ kw +:+ " in " +:+ fname +:+ "() call - ignoring.".

Definition msg3 (conflicting_keys fname : string) (new_key : option string)
  : string :=
  "Conflicting deprecated keywords (" +:+ conflicting_keys +:+ ") in " +:+
  fname +:+ "() call - please use new '" +:+ str new_key +:+
  "' keyword instead.".

Section Decorator.

Context {V A : Type}.

(** [keywords]: old names to new names ([None]: no replacement);
    [fname]: the name of the decorated function. *)
Variable keywords : dict (option string).
Variable fname : string.

(** [dict.fromkeys(keywords.values(), 0)] *)
Definition fromkeys (values : list (option string)) : gmap (option string) nat :=
  foldr (λ key counts, <[key := 0]> counts) ∅ values.

(** The first loop of [echo_func]: how often each new name is aimed at by a
    deprecated keyword of the call. *)
Definition count_appearances (kwargs : dict V) : gmap (option string) nat :=
  fold_left
    (λ counts item,
       let '(key, new_key) := item in
       if dmem key kwargs
       then <[new_key := counts !!! new_key + 1]> counts
       else counts)
    keywords (fromkeys (map snd keywords)).

(** The second loop: the first new name that is aimed at more than once. *)
Fixpoint find_conflict (values : list (option string))
    (counts : gmap (option string) nat) : option string :=
  match values with
  | [] => None
  | None :: rest => find_conflict rest counts
  | Some key_ :: rest =>
      if Nat.ltb 1 (counts !!! Some key_) then Some key_
      else find_conflict rest counts
  end.

(** The text of the exception.  [new_key] is the variable the first loop
    leaves behind: the new name of the last item of [keywords]. *)
Definition conflict_error (key_ : string) : exn :=
  let conflicting_keys :=
    String.concat ", "
      (map fst
         (List.filter (λ item, bool_decide (snd item = Some key_)) keywords)) in
  match last (map snd keywords) with
  | None => NameError "new_key"
  | Some new_key => Exception (msg3 conflicting_keys fname new_key)
  end.

Definition check_conflicts (kwargs : dict V) : exn + unit :=
  match find_conflict (map snd keywords) (count_appearances kwargs) with
  | Some key_ => inl (conflict_error key_)
  | None => inr ()
  end.

(** The third loop, over the snapshot [list(kwargs)]; the warnings given out
    are collected in order. *)
Fixpoint map_keywords (snapshot : list string) (kwargs : dict V)
    (warnings : list string) : exn + dict V * list string :=
  match snapshot with
  | [] => inr (kwargs, warnings)
  | kw :: rest =>
      match dget kw keywords with
      | None => map_keywords rest kwargs warnings
      | Some None =>
          if dmem kw kwargs
          then map_keywords rest (ddel kw kwargs) (warnings ++ [msg2 kw fname])
          else inl (KeyError kw)
      | Some (Some nkw) =>
          match dget kw kwargs with
          | None => inl (KeyError kw)
          | Some v =>
              let kwargs := dset nkw v kwargs in
              if dmem kw kwargs
              then map_keywords rest (ddel kw kwargs)
                     (warnings ++ [msg kw fname nkw])
              else inl (KeyError kw)
          end
      end
  end.

(** The wrapper around [func]: the result of the call and the warnings, or
    the exception raised before [func] is reached. *)
Definition echo_func (func : list V → dict V → A) (args : list V)
    (kwargs : dict V) : exn + A * list string :=
  match check_conflicts kwargs with
  | inl e => inl e
  | inr _ =>
      match map_keywords (dkeys kwargs) kwargs [] with
      | inl e => inl e
      | inr (kwargs, warnings) => inr (func args kwargs, warnings)
      end
  end.

(** The deprecated keywords that a call uses, with their new names. *)
Definition present (kwargs : dict V) : dict (option string) :=
  List.filter (λ item, dmem (fst item) kwargs) keywords.

(** The new names the call is redirected to. *)
Definition targets (kwargs : dict V) : list string :=
  omap snd (present kwargs).

(** The warning a deprecated keyword of the call leads to. *)
Definition warning_of (kw : string) : option string :=
  match dget kw keywords with
  | None => None
  | Some None => Some (msg2 kw fname)
  | Some (Some nkw) => Some (msg kw fname nkw)
  end.

End Decorator.

End Keywords.

Module Uncompress.

(** ** What the archive libraries report about a file

    [tarfile], [zipfile], [bz2] and [gzip] are external; a file is described
    by what these libraries answer on it.  A library call that raises is
    [inl] with the description of the exception.  [tarfile.is_tarfile] only
    catches [TarError]: on a truncated gzip stream or on a directory it
    raises, so it answers or raises; [zipfile.is_zipfile] catches what
    opening and reading raise, and answers. *)

(** One step of [for tarinfo in tar]: the next member together with what
    [tar.extractfile(tarinfo).read()] gives, or the iterator raising. *)
Inductive tar_step :=
| TarMember (isfile : bool) (data : string + bytes)
| TarBroken (what : string).

Record zip_archive := {
  zip_comment : bytes;
  zip_namelist : list string;
  zip_read : string → string + bytes
}.

Record file_view := {
  is_tarfile : string + bool;             (* tarfile.is_tarfile(filename) *)
  tar_open : string + list tar_step;      (* tarfile.open(filename, 'r|*') *)
  is_zipfile : bool;                      (* zipfile.is_zipfile(filename) *)
  zip_open : string + zip_archive;        (* zipfile.ZipFile(filename) *)
  bz2_decompress : string + bytes;        (* bz2.decompress(fp.read()) *)
  gzip_read : string + bytes              (* gzip.open(filename).read() *)
}.

(** The token looked for in the comment of a zip archive. *)
Definition obspy_no_uncompress : bytes :=
  Eval cbv in list_byte_of_string "obspy_no_uncompress".

(** The body of the [for tarinfo in tar] loop.  [obj_list] is appended to in
    place, so what was collected before an exception stays in it. *)
Fixpoint tar_members (steps : list tar_step) (obj_list : list bytes)
  : list bytes * (string + unit) :=
  match steps with
  | [] => (obj_list, inr ())
  | TarBroken what :: _ => (obj_list, inl what)
  | TarMember isfile data :: rest =>
      if negb isfile then tar_members rest obj_list
      else match data with
           | inl what => (obj_list, inl what)
           | inr data =>
               match data with
               | [] => tar_members rest obj_list
               | _ :: _ => tar_members rest (obj_list ++ [data])
               end
           end
  end.

(** [[zip.read(name) for name in zip.namelist()]]: the list exists only once
    every member was read. *)
Fixpoint zip_read_all (zip : zip_archive) (names : list string)
  : string + list bytes :=
  match names with
  | [] => inr []
  | name :: rest =>
      match zip_read zip name with
      | inl what => inl what
      | inr data =>
          match zip_read_all zip rest with
          | inl what => inl what
          | inr datas => inr (data :: datas)
          end
      end
  end.

(** The [if tarfile.is_tarfile ... elif ...] chain.  The test of the first
    [if] is outside every [try]: when it raises, the chain ends there with
    that exception ([inl]).  Otherwise the first component is [obj_list]
    after the chain ([None] is Python's [None]); the second one tells
    whether the [try] block completed or raised. *)
Definition extract (filename : string) (fv : file_view)
  : string + option (list bytes) * (string + unit) :=
  match is_tarfile fv with
  | inl what => inl what
  | inr true =>
      inr match tar_open fv with
          | inl what => (Some [], inl what)
          | inr steps =>
              let '(obj_list, r) := tar_members steps [] in (Some obj_list, r)
          end
  | inr false =>
      inr (if is_zipfile fv then
             match zip_open fv with
             | inl what => (Some [], inl what)
             | inr zip =>
                 if bytes_contains obspy_no_uncompress (zip_comment zip)
                 then (None, inr ())
                 else match zip_read_all zip (zip_namelist zip) with
                      | inl what => (Some [], inl what)
                      | inr obj_list => (Some obj_list, inr ())
                      end
             end
           else if endswith filename ".bz2" then
             match bz2_decompress fv with
             | inl what => (Some [], inl what)
             | inr data => (Some [data], inr ())
             end
           else if endswith filename ".gz" then
             match gzip_read fv with
             | inl what => (Some [], inl what)
             | inr data => (Some [data], inr ())
             end
           else (Some [], inr ()))
  end.

(** [except Exception: pass]: what is left is [obj_list], or the exception
    of the first test. *)
Definition sniffed (filename : string) (fv : file_view)
  : string + option (list bytes) :=
  match extract filename fv with
  | inl what => inl what
  | inr (obj_list, _) => inr obj_list
  end.

(** The branch of the chain that is taken, when the first test answers. *)
Inductive ArchiveKind := NotAnArchive | Tar | Zip | Gzip | Bzip2.

Definition archive_kind (filename : string) (fv : file_view)
  : option ArchiveKind :=
  match is_tarfile fv with
  | inl _ => None
  | inr true => Some Tar
  | inr false =>
      Some (if is_zipfile fv then Zip
            else if endswith filename ".bz2" then Bzip2
            else if endswith filename ".gz" then Gzip
            else NotAnArchive)
  end.

(** ** The first positional argument *)

Inductive farg :=
| ArgStr (s : string)       (* a str *)
| ArgPath (s : string)      (* a pathlib.Path *)
| ArgFile (fd : nat).       (* an open file object *)

(** The file system path an argument denotes, if any. *)
Definition path_like (a : farg) : option string :=
  match a with
  | ArgStr s | ArgPath s => Some s
  | ArgFile _ => None
  end.

(** ** Effects *)

Section Dispatcher.

(** [R]: the objects other than [None] a reader returns, [E]: the exceptions
    a reader or [+=] raise, [St]: the private state of the reader. *)
Context {R E St : Type}.

Abbreviation pyobj := (option R).

(** The exceptions a run ends with: the [IOError] of the decorator, what
    [tarfile.is_tarfile] raises, and what the reader or [+=] raise. *)
Inductive exn :=
| IOError (msg : string)
| LibraryError (what : string)
| Raised (e : E).

(** What a run does to the outside, in order: the existence test, the start
    of format probing (the call of [tarfile.is_tarfile]), the life of the
    temporary files, and the reader invocations with what they gave. *)
Inductive event :=
| EvExists (f : string)
| EvSniff (f : string)
| EvTmpCreate (name : string)
| EvTmpWrite (name : string) (data : bytes)
| EvCall (a : farg) (args : list pyval) (kwargs : gmap string pyval)
         (seen : option bytes) (r : E + pyobj)
| EvTmpDelete (name : string).

(** The files of the caller as the libraries see them, the live temporary
    files with their content, the number of temporary files acquired so
    far, and the state of the reader. *)
Record World := {
  files : gmap string file_view;
  temps : gmap string bytes;
  next_tmp : nat;
  reader_state : St
}.

(** A computation ends in a value or an exception, a new state, and the
    events it gave rise to. *)
Record out (A : Type) := Out {
  outcome : exn + A;
  final : World;
  trace : list event
}.
Arguments Out {A}.
Arguments outcome {A}.
Arguments final {A}.
Arguments trace {A}.

Definition M (A : Type) : Type := World → out A.

Definition ret {A} (a : A) : M A := λ w, Out (inr a) w [].

Definition raise {A} (e : exn) : M A := λ w, Out (inl e) w [].

Definition bind {A B} (m : M A) (k : A → M B) : M B := λ w,
  let o := m w in
  match outcome o with
  | inl e => Out (inl e) (final o) (trace o)
  | inr a =>
      let o' := k a (final o) in
      Out (outcome o') (final o') (trace o ++ trace o')
  end.

Notation "'let*' x ':=' m 'in' k" := (bind m (λ x, k))
  (at level 10, x name, m at level 100, k at level 200, only parsing).
Notation "m '>>' k" := (bind m (λ _, k))
  (at level 100, k at level 200, right associativity, only parsing).

(** The name [NamedTemporaryFile] picks at its [n]-th acquisition. *)
Variable tmpname : nat → string.

(** [a += b] on Python objects. *)
Variable combine : pyobj → pyobj → E + pyobj.

(** The wrapped reader.  [seen] is what the file named by a [str] argument
    holds when it is one of the live temporary files; what the reader finds
    in the files of the caller is up to [func] and its state.  The reader
    returns or raises, and leaves the temporary files alone. *)
Variable func :
  farg → list pyval → gmap string pyval → option bytes → St → (E + pyobj) * St.

Definition of_py {A} (r : E + A) : exn + A :=
  match r with
  | inl e => inl (Raised e)
  | inr a => inr a
  end.

(** [func(filename, *args, **kwargs)] *)
Definition call (a : farg) (args : list pyval) (kwargs : gmap string pyval)
  : M pyobj := λ w,
  let seen := match a with ArgStr f => temps w !! f | _ => None end in
  let '(r, st) := func a args kwargs seen (reader_state w) in
  Out (of_py r)
      {| files := files w; temps := temps w; next_tmp := next_tmp w;
         reader_state := st |}
      [EvCall a args kwargs seen r].

(** [Path(filename).exists()], giving the view of the file when it does. *)
Definition stat (f : string) : M (option file_view) := λ w,
  Out (inr (files w !! f)) w [EvExists f].

Definition tell (ev : event) : M unit := λ w, Out (inr ()) w [ev].

(** [tempfile._fileobj.write(obj)] *)
Definition tmp_write (name : string) (obj : bytes) : M unit := λ w,
  Out (inr ())
      {| files := files w;
         temps := alter (λ old, old ++ obj) name (temps w);
         next_tmp := next_tmp w; reader_state := reader_state w |}
      [EvTmpWrite name obj].

(** Modelled from the spec: [NamedTemporaryFile] of [obspy.core.util.base] is
    not part of the sources at hand.  Following the description of a
    TempResource, entering the [with] block creates an empty file under a
    fresh name, and leaving it, by return or by exception, deletes that file
    and lets the exception through. *)
Definition NamedTemporaryFile {A} (body : string → M A) : M A := λ w,
  let name := tmpname (next_tmp w) in
  let o := body name
             {| files := files w; temps := <[name := []]> (temps w);
                next_tmp := S (next_tmp w); reader_state := reader_state w |} in
  Out (outcome o)
      {| files := files (final o); temps := delete name (temps (final o));
         next_tmp := next_tmp (final o);
         reader_state := reader_state (final o) |}
      (EvTmpCreate name :: trace o ++ [EvTmpDelete name]).

(** [result += stream] *)
Definition iadd (result stream : pyobj) : M pyobj := λ w,
  Out (of_py (combine result stream)) w [].

(** ** [uncompress_file] *)

(** The [for obj in obj_list] loop; [result] starts as [None]. *)
Fixpoint dispatch (obj_list : list bytes) (args : list pyval)
    (kwargs : gmap string pyval) (result : pyobj) : M pyobj :=
  match obj_list with
  | [] => ret result
  | obj :: rest =>
      let* result := NamedTemporaryFile (λ name,
        tmp_write name obj >>
        let* stream := call (ArgStr name) args kwargs in
        match result with
        | None => ret stream
        | Some _ => iadd result stream
        end) in
      dispatch rest args kwargs result
  end.

Definition uncompress_file (filename : farg) (args : list pyval)
    (kwargs : gmap string pyval) : M pyobj :=
  let check_compression := default (PyBool true) (kwargs !! "check_compression") in
  let kwargs := delete "check_compression" kwargs in
  if negb (truthy check_compression) then call filename args kwargs
  else
    match filename with
    | ArgStr f =>
        let* fv := stat f in
        match fv with
        | None => raise (IOError ("File not found '" +:+ f +:+ "'"))
        | Some fv =>
            tell (EvSniff f) >>
            match sniffed f fv with
            | inl what => raise (LibraryError what)
            | inr (Some ((_ :: _) as obj_list)) =>
                dispatch obj_list args kwargs None
            | inr _ => call filename args kwargs
            end
        end
    | _ => call filename args kwargs
    end.

(** ** What a trace shows *)

(** The reader invocations, in order. *)
Definition is_call (ev : event) : bool :=
  match ev with
  | EvCall _ _ _ _ _ => true
  | _ => false
  end.

Definition calls (tr : list event) : list event := filter is_call tr.

(** What the reader found at the paths it was called on. *)
Definition payloads (tr : list event) : list (option bytes) :=
  omap (λ ev, match ev with EvCall _ _ _ seen _ => Some seen | _ => None end) tr.

(** What the reader answered. *)
Definition results (tr : list event) : list (E + pyobj) :=
  omap (λ ev, match ev with EvCall _ _ _ _ r => Some r | _ => None end) tr.

(** The temporary files created, and those deleted. *)
Definition created (tr : list event) : list string :=
  omap (λ ev, match ev with EvTmpCreate name => Some name | _ => None end) tr.

Definition deleted (tr : list event) : list string :=
  omap (λ ev, match ev with EvTmpDelete name => Some name | _ => None end) tr.

(** The keyword arguments of a reader invocation. *)
Definition lacks_check_compression (ev : event) : Prop :=
  match ev with
  | EvCall _ _ kwargs _ _ => kwargs !! "check_compression" = None
  | _ => True
  end.

(** ** The merge as the specification words it

    The first result seeds the aggregate, every later one is combined into
    it, left to right. *)
Fixpoint fold_combine (aggregate : pyobj) (streams : list pyobj) : E + pyobj :=
  match streams with
  | [] => inr aggregate
  | stream :: rest =>
      match combine aggregate stream with
      | inl e => inl e
      | inr aggregate => fold_combine aggregate rest
      end
  end.

Definition merge (streams : list pyobj) : E + pyobj :=
  match streams with
  | [] => inr None
  | first :: rest => fold_combine first rest
  end.

(** Every combination along the way gives an object other than [None]. *)
Fixpoint steady_from (aggregate : R) (streams : list R) : bool :=
  match streams with
  | [] => true
  | stream :: rest =>
      match combine (Some aggregate) (Some stream) with
      | inr (Some aggregate) => steady_from aggregate rest
      | _ => false
      end
  end.

Definition steady (streams : list R) : bool :=
  match streams with
  | [] => true
  | first :: rest => steady_from first rest
  end.

(** A tar stream of regular files, each with the given content. *)
Definition regular_members (datas : list bytes) : list tar_step :=
  map (λ data, TarMember true (inr data)) datas.

(** The keyword arguments the reader is given. *)
Definition forwarded (kwargs : gmap string pyval) : gmap string pyval :=
  delete "check_compression" kwargs.

(** [check_compression] as the call has it. *)
Definition checks (kwargs : gmap string pyval) : bool :=
  truthy (default (PyBool true) (kwargs !! "check_compression")).

End Dispatcher.

Arguments exn : clear implicits.
Arguments event : clear implicits.
Arguments World : clear implicits.
Arguments out : clear implicits.
Arguments M : clear implicits.
Arguments Out {R E St A}.
Arguments outcome {R E St A}.
Arguments final {R E St A}.
Arguments trace {R E St A}.

End Uncompress.

(** * The smaller wrappers of [decorator.py] *)

Module Wrappers.

(** [needle in haystack] on [str]. *)
Fixpoint contains (needle haystack : string) : bool :=
  String.prefix needle haystack ||
  match haystack with
  | EmptyString => false
  | String _ haystack' => contains needle haystack'
  end.

(** ** [deprecated] *)

Section Deprecated.

Context {Args Res : Type}.

(** [str.lower] *)
Variable lower : string → string.

(** A function object: its docstring ([None] when it has none), its name
    and what calling it gives. *)
Record function := {
  doc : option string;           (* func.__doc__ *)
  name : string;                 (* func.__name__ *)
  body : Args → Res
}.

(** [if warning_msg] for a [str] or [None]. *)
Definition given (warning_msg : option string) : bool :=
  match warning_msg with
  | Some s => negb (String.eqb s "")
  | None => false
  end.

(** [_deprecated]: the message handed to [warnings.warn], the function
    object after the call, and the result of the call. *)
Definition _deprecated (warning_msg : option string) (func : function)
    (args : Args) : option string * function * Res :=
  let '(msg, func) :=
    if contains "deprecated" (lower (Keywords.str (doc func)))
    then (doc func, func)
    else if given warning_msg
    then (warning_msg,
          {| doc := warning_msg; name := name func; body := body func |})
    else (Some ("Call to deprecated function " +:+ name func +:+ "."), func) in
  (msg, func, body func args).

End Deprecated.

Arguments function : clear implicits.

(** ** [skip_on_network_error] *)

Section Network.

Context {Args Res X : Type}.

(** What the wrapped function raises: [socket.timeout], another
    [socket.error], or an exception that is neither; the first two with
    their [str(e)]. *)
Inductive raised :=
| SocketTimeout (text : string)
| SocketError (text : string)
| OtherException (e : X).

(** How the wrapper ends: with a value ([None] is Python's [None]), with
    [pytest.skip], or with an exception. *)
Inductive ending :=
| Returned (v : option Res)
| Skipped (reason : string)
| Raising (e : raised).

(** The wrapped function returns a value, which may be [None], or raises;
    [return func(...)] hands its value on as it is, and an [except] clause
    whose test fails falls off the end of the wrapper, which is [None]
    too. *)
Definition skip_on_network_error (func : Args → raised + option Res)
    (args : Args) : ending :=
  match func args with
  | inr v => Returned v
  | inl (SocketTimeout text) =>
      if String.eqb text "timed out" then Skipped text else Returned None
  | inl (SocketError text) =>
      if String.eqb text "[Errno 110] Connection timed out"
      then Skipped text else Returned None
  | inl (OtherException e) => Raising (OtherException e)
  end.

End Network.

Arguments raised : clear implicits.
Arguments ending : clear implicits.

(** ** [map_example_filename] *)

Section MapExample.

Context {Res : Type}.

(** [get_example_file]: the path of an example file, or [IOError]. *)
Variable get_example_file : string → string + string.

(** The names of the parameters of the wrapped function, as [inspect]
    gives them. *)
Variable inspected_args : list string.

Definition prefix : string := "/path/to/".

(** [re.match(prefix, s)] *)
Definition re_match (s : string) : bool := String.prefix prefix s.

(** [s[9:]] *)
Definition from_9 (s : string) : string :=
  substring 9 (String.length s - 9) s.

(** [inspected_args.index(name)]; [None] stands for [ValueError]. *)
Fixpoint index (name : string) (names : list string) : option nat :=
  match names with
  | [] => None
  | name' :: names =>
      if String.eqb name name' then Some 0 else S <$> index name names
  end.

(** The value an argument is replaced by, if it is replaced. *)
Definition mapped (v : pyval) : option pyval :=
  match v with
  | PyStr s =>
      if re_match s
      then match get_example_file (from_9 s) with
           | inr path => Some (PyStr path)
           | inl _ => None
           end
      else None
  | _ => None
  end.

(** [_map_example_filename]: the arguments the wrapped function is called
    with. *)
Definition map_arguments (arg_kwarg_name : string) (args : list pyval)
    (kwargs : Keywords.dict pyval) : list pyval * Keywords.dict pyval :=
  if Keywords.dmem arg_kwarg_name kwargs then
    match Keywords.dget arg_kwarg_name kwargs ≫= mapped with
    | Some v => (args, Keywords.dset arg_kwarg_name v kwargs)
    | None => (args, kwargs)
    end
  else
    match index arg_kwarg_name inspected_args with
    | None => (args, kwargs)
    | Some ind =>
        match args !! ind ≫= mapped with
        | Some v => (<[ind := v]> args, kwargs)
        | None => (args, kwargs)
        end
    end.

Definition _map_example_filename (arg_kwarg_name : string)
    (func : list pyval → Keywords.dict pyval → Res) (args : list pyval)
    (kwargs : Keywords.dict pyval) : Res :=
  let '(args, kwargs) := map_arguments arg_kwarg_name args kwargs in
  func args kwargs.

End MapExample.

End Wrappers.

(** * The JSON default function of [obspy.core.json] *)

Module Json.

(** Values of attributes. *)
#[warnings="-register-all"]
Inductive jval :=
| JNone
| JBool (b : bool)
| JInt (z : Z)
| JStr (s : string)
| JList (l : list jval)
| JDict (items : list (string * jval)).

(** Truth value testing. *)
Definition truth (v : jval) : bool :=
  match v with
  | JNone => false
  | JBool b => b
  | JInt z => negb (z =? 0)%Z
  | JStr s => negb (String.eqb s "")
  | JList l => match l with [] => false | _ => true end
  | JDict items => match items with [] => false | _ => true end
  end.

(** [v == 0] *)
Definition is_zero (v : jval) : bool :=
  match v with
  | JBool b => negb b
  | JInt z => (z =? 0)%Z
  | _ => false
  end.

(** The objects [Default] tells apart, with what it uses of them: what
    [obj.iteritems()] gives on an [AttribDict], the attributes of a
    [Catalog], [str] and [strftime] of a [UTCDateTime], [str] of a
    [ResourceIdentifier].  [iteritems] is the method of a Python 2 dict: the
    call yields the items, or raises ([inl], an [AttributeError] where the
    class has no such method, as under Python 3). *)
Inductive object :=
| AttribDict (iteritems : string + list (string * jval))
| Catalog (getattr : string → jval)
| UTCDateTime (str : string) (strftime : string → string)
| ResourceIdentifier (str : string)
| Other.

Definition _catalog_attrib : list string :=
  ["events"; "comments"; "description"; "creation_info"; "resource_id"].

(** [Default(omit_nulls, time_format).__call__(obj)]: the value returned,
    or the exception raised. *)
Definition default_call (OMIT_NULLS : bool) (TIME_FORMAT : option string)
    (obj : object) : string + jval :=
  match obj with
  | AttribDict iteritems =>
      if OMIT_NULLS
      then match iteritems with
           | inl what => inl what
           | inr items =>
               inr (JDict (List.filter (λ kv, truth kv.2 || is_zero kv.2)
                             items))
           end
      else match iteritems with
           | inl what => inl what
           | inr items => inr (JDict items)
           end
  | Catalog getattr =>
      inr (JDict (map (λ k, (k, getattr k))
                    (List.filter (λ k, truth (getattr k)) _catalog_attrib)))
  | UTCDateTime str strftime =>
      match TIME_FORMAT with
      | None => inr (JStr str)
      | Some format => inr (JStr (strftime format))
      end
  | ResourceIdentifier str => inr (JStr str)
  | Other => inr JNone
  end.

End Json.

(** * More of what a trace shows *)

Module Traces.
Import Uncompress.

(** The first arguments of the reader invocations, in order. *)
Definition called_on {R E : Type} (tr : list (event R E)) : list farg :=
  omap (λ ev, match ev with EvCall a _ _ _ _ => Some a | _ => None end) tr.

(** The contents of the regular files of a tar stream that are not empty,
    in stream order. *)
Definition regular_contents (steps : list tar_step) : list bytes :=
  omap (λ step, match step with
                | TarMember true (inr (c :: data)) => Some (c :: data)
                | _ => None
                end) steps.

(** A step at which the tar stream stops with an exception: the iterator
    raises, or the read of a regular file does. *)
Definition step_fails (step : tar_step) : bool :=
  match step with
  | TarBroken _ | TarMember true (inl _) => true
  | _ => false
  end.

(** The members of a tar stream that come before its first failing step. *)
Fixpoint read_before_failure (steps : list tar_step) : list tar_step :=
  match steps with
  | [] => []
  | step :: rest =>
      if step_fails step then [] else step :: read_before_failure rest
  end.

(** A payload that sits in a temporary file and has content. *)
Definition nonempty_payload (seen : option bytes) : Prop :=
  ∃ data, seen = Some data ∧ data ≠ [].

End Traces.

(** * Concrete inputs *)

Module Examples.
Import Uncompress.

Definition b (s : string) : bytes := list_byte_of_string s.

Definition tmpname (n : nat) : string :=
  "/tmp/obspy-" +:+ String (ascii_of_nat (48 + n)) "".

(** A reader that returns the size of what it finds and counts its calls. *)
Definition size_reader (a : farg) (args : list pyval)
    (kwargs : gmap string pyval) (seen : option bytes) (n : nat)
  : (string + option nat) * nat :=
  (inr (Some (length (default [] seen))), S n).

(** A reader that returns [None] when first called and 7 afterwards. *)
Definition late_reader (a : farg) (args : list pyval)
    (kwargs : gmap string pyval) (seen : option bytes) (n : nat)
  : (string + option nat) * nat :=
  (inr (if Nat.eqb n 0 then None else Some 7), S n).

(** A reader that raises on its second call. *)
Definition failing_reader (a : farg) (args : list pyval)
    (kwargs : gmap string pyval) (seen : option bytes) (n : nat)
  : (string + option nat) * nat :=
  (if Nat.eqb n 1 then inl "ValueError" else inr (Some n), S n).

(** [+=] on [int] and [None]. *)
Definition add (x y : option nat) : string + option nat :=
  match x, y with
  | Some x, Some y => inr (Some (x + y))
  | _, _ => inl "TypeError"
  end.

(** A file no library takes for an archive. *)
Definition plain : file_view :=
  {| is_tarfile := inr false; tar_open := inl "ReadError";
     is_zipfile := false; zip_open := inl "BadZipFile";
     bz2_decompress := inl "OSError"; gzip_read := inl "BadGzipFile" |}.

(** A tar archive of two regular files. *)
Definition two_members : file_view :=
  {| is_tarfile := inr true;
     tar_open := inr (regular_members [b "abc"; b "de"]);
     is_zipfile := false; zip_open := inl "BadZipFile";
     bz2_decompress := inl "OSError"; gzip_read := inl "BadGzipFile" |}.

(** A tar archive that breaks after its first member. *)
Definition truncated_tar : file_view :=
  {| is_tarfile := inr true;
     tar_open := inr [TarMember true (inr (b "abc")); TarBroken "ReadError"];
     is_zipfile := false; zip_open := inl "BadZipFile";
     bz2_decompress := inl "OSError"; gzip_read := inl "BadGzipFile" |}.

(** A zip archive whose only member is empty. *)
Definition empty_member_zip : file_view :=
  {| is_tarfile := inr false; tar_open := inl "ReadError";
     is_zipfile := true;
     zip_open := inr {| zip_comment := []; zip_namelist := ["empty.txt"];
                        zip_read := λ _, inr [] |};
     bz2_decompress := inl "OSError"; gzip_read := inl "BadGzipFile" |}.

(** A zip archive that asks not to be uncompressed. *)
Definition plugin_zip : file_view :=
  {| is_tarfile := inr false; tar_open := inl "ReadError";
     is_zipfile := true;
     zip_open := inr {| zip_comment := b "x obspy_no_uncompress";
                        zip_namelist := ["data"];
                        zip_read := λ _, inr (b "abc") |};
     bz2_decompress := inl "OSError"; gzip_read := inl "BadGzipFile" |}.

(** A gzip stream cut short: [tarfile.is_tarfile] raises on it. *)
Definition truncated_gz : file_view :=
  {| is_tarfile := inl "EOFError"; tar_open := inl "EOFError";
     is_zipfile := false; zip_open := inl "BadZipFile";
     bz2_decompress := inl "OSError"; gzip_read := inl "EOFError" |}.

(** A file that both [tarfile] and [zipfile] accept, with the marker in
    its zip comment. *)
Definition marked_polyglot : file_view :=
  {| is_tarfile := inr true;
     tar_open := inr (regular_members [b "abc"]);
     is_zipfile := true;
     zip_open := inr {| zip_comment := b "obspy_no_uncompress";
                        zip_namelist := ["data"];
                        zip_read := λ _, inr (b "abc") |};
     bz2_decompress := inl "OSError"; gzip_read := inl "BadGzipFile" |}.

(** A gzip file, and one that only has the name of one. *)
Definition good_gz : file_view :=
  {| is_tarfile := inr false; tar_open := inl "ReadError";
     is_zipfile := false; zip_open := inl "BadZipFile";
     bz2_decompress := inl "OSError"; gzip_read := inr (b "abcd") |}.

Definition world (fs : gmap string file_view) : World nat :=
  {| files := fs; temps := ∅; next_tmp := 0; reader_state := 0 |}.

Definition disk : gmap string file_view :=
  {[ "two.tar" := two_members; "cut.tar" := truncated_tar;
     "empty.zip" := empty_member_zip; "plugin.zip" := plugin_zip;
     "data.gz" := good_gz; "bad.gz" := plain;
     "cut.gz" := truncated_gz; "both.zip" := marked_polyglot ]}.

(** A wrapped function that hands back the keywords it is called with. *)
Definition kept (args : list Z) (kwargs : Keywords.dict Z) : Keywords.dict Z :=
  kwargs.

(** Two old names for [x], and one old name for [y]. *)
Definition two_for_x : Keywords.dict (option string) :=
  [("a", Some "x"); ("b", Some "x"); ("c", Some "y")].

(** [a] was renamed to [b] and [b] to [c]. *)
Definition chained : Keywords.dict (option string) :=
  [("a", Some "b"); ("b", Some "c")].

(** One renamed keyword and one that is ignored. *)
Definition renamed : Keywords.dict (option string) :=
  [("a", Some "x"); ("d", None)].

End Examples.

(** * More concrete inputs *)

Module MoreExamples.
Import Wrappers Json.

(** [str.lower] on ASCII text. *)
Definition lower_ascii (c : ascii) : ascii :=
  let n := nat_of_ascii c in
  if Nat.leb 65 n && Nat.leb n 90 then ascii_of_nat (n + 32) else c.

Fixpoint lower (s : string) : string :=
  match s with
  | EmptyString => EmptyString
  | String c s => String (lower_ascii c) (lower s)
  end.

(** A function without docstring that doubles its argument. *)
Definition twice : function nat nat :=
  {| doc := None; name := "twice"; body := λ n, 2 * n |}.

(** The example files there are. *)
Definition get_example_file (s : string) : string + string :=
  if String.eqb s "test.mseed" then inr "/usr/share/obspy/test.mseed"
  else inl ("Could not find file " +:+ s).

(** A function that raises an exception that is no socket error. *)
Definition crashing (n : nat) : raised string + option nat :=
  inl (OtherException "ValueError").

(** A disk with one file that is no archive. *)
Definition plain_disk : gmap string Uncompress.file_view :=
  {[ "trace.mseed" := Examples.plain ]}.

End MoreExamples.

(** * Facts about [deprecated_keywords] *)

Module KeywordsFacts.
Import Keywords.

Section DictFacts.

Context {V : Type}.
Implicit Types (d : dict V) (k : string) (v : V).

Lemma dget_dset k n v d :
  dget k (dset n v d) = if decide (k = n) then Some v else dget k d.
Proof.
  induction d as [|[k' v'] d IH]; cbn.
  - destruct (String.eqb_spec k n); by case_decide.
  - destruct (String.eqb_spec n k') as [->|Hn]; cbn.
    + destruct (String.eqb_spec k k'); by case_decide.
    + destruct (String.eqb_spec k k') as [->|Hk]; [by rewrite decide_False|].
      exact IH.
Qed.

Lemma dget_ddel k kw d :
  dget k (ddel kw d) = if decide (k = kw) then None else dget k d.
Proof.
  unfold ddel. induction d as [|[k' v'] d IH]; cbn; [by case_decide|].
  destruct (String.eqb_spec kw k') as [<-|Hn]; cbn.
  - rewrite IH. destruct (String.eqb_spec k kw); by case_decide.
  - rewrite IH.
    destruct (String.eqb_spec k k') as [->|Hk]; [by rewrite decide_False|].
    done.
Qed.

Lemma dmem_dget k d : dmem k d = true ↔ is_Some (dget k d).
Proof.
  unfold dmem.
  destruct (dget k d); split; first [done | by eexists | by intros [? ?]].
Qed.

Lemma dget_elem k v d : dget k d = Some v → (k, v) ∈ d.
Proof.
  induction d as [|[k' v'] d IH]; cbn; [done|].
  destruct (String.eqb_spec k k') as [->|Hk].
  - intros [= ->]. left.
  - intros Hget. right. by apply IH.
Qed.

Lemma dkeys_dget k d : k ∈ dkeys d ↔ is_Some (dget k d).
Proof.
  unfold dkeys. induction d as [|[k' v'] d IH]; cbn.
  - split; [by intros ?%elem_of_nil|by intros [? ?]].
  - destruct (String.eqb_spec k k') as [->|Hk].
    + split; [by eexists|left].
    + rewrite elem_of_cons, IH. split; [by intros [?|?]|by right].
Qed.

End DictFacts.

Section DecoratorFacts.

Context {V A : Type}.
Variable keywords : dict (option string).
Variable fname : string.

Implicit Types (kwargs d : dict V) (k kw : string) (ks : list string)
  (ws : list string).

(** *** The conflict check *)

Lemma fromkeys_zero values key : fromkeys values !!! key = 0.
Proof.
  induction values as [|key' values IH]; cbn.
  - by rewrite lookup_total_empty.
  - rewrite lookup_total_insert. by case_decide.
Qed.

(** The counting loop adds, to every new name, the number of deprecated
    keywords in use that aim at it. *)
Lemma count_loop kwargs (items : dict (option string)) counts
    (key : option string) :
  fold_left
    (λ (counts : gmap (option string) nat) (item : string * option string),
       let '(old, new) := item in
       if dmem old kwargs then <[new := counts !!! new + 1]> counts
       else counts)
    items counts !!! key =
  counts !!! key +
  length (List.filter (λ item, bool_decide (item.2 = key))
            (List.filter (λ item, dmem item.1 kwargs) items)).
Proof.
  revert counts.
  induction items as [|[old new] items IH]; intros counts; cbn; [lia|].
  rewrite IH.
  destruct (dmem old kwargs); cbn; [|done].
  rewrite lookup_total_insert.
  destruct (decide (new = key)) as [->|Hne].
  - rewrite bool_decide_eq_true_2 by done. cbn. lia.
  - rewrite bool_decide_eq_false_2 by done. done.
Qed.

Lemma count_appearances_spec kwargs key :
  count_appearances keywords kwargs !!! key =
  length (List.filter (λ item, bool_decide (item.2 = key))
            (present keywords kwargs)).
Proof.
  unfold count_appearances, present.
  by rewrite count_loop, fromkeys_zero.
Qed.

Lemma find_conflict_None (values : list (option string))
    (counts : gmap (option string) nat) :
  (∀ key_, (counts !!! Some key_ ≤ 1)%nat) → find_conflict values counts = None.
Proof.
  intros Hle.
  induction values as [|[key_|] values IH]; cbn [find_conflict]; try done.
  destruct (Nat.ltb_spec 1 (counts !!! Some key_)) as [Hlt|_]; [|exact IH].
  specialize (Hle key_). lia.
Qed.

Lemma omap_snd_absent (items : dict (option string)) key_ :
  key_ ∉ omap snd items →
  List.filter (λ item, bool_decide (item.2 = Some key_)) items = [].
Proof.
  induction items as [|[old [new|]] items IH]; cbn; intros Hout; try done.
  - apply not_elem_of_cons in Hout as [Hne Hout].
    rewrite bool_decide_eq_false_2 by congruence. by apply IH.
  - rewrite bool_decide_eq_false_2 by done. by apply IH.
Qed.

Lemma NoDup_count (items : dict (option string)) key_ :
  NoDup (omap snd items) →
  (length (List.filter (λ item, bool_decide (item.2 = Some key_)) items) ≤ 1)%nat.
Proof.
  induction items as [|[old [new|]] items IH]; cbn; intros Hnd; [lia| |].
  - apply NoDup_cons in Hnd as [Hout Hnd].
    destruct (decide (new = key_)) as [->|Hne].
    + rewrite bool_decide_eq_true_2 by done. cbn.
      by rewrite omap_snd_absent.
    + rewrite bool_decide_eq_false_2 by congruence. by apply IH.
  - rewrite bool_decide_eq_false_2 by done. by apply IH.
Qed.

Lemma NoDup_same_target (items : dict (option string)) k k' key_ :
  NoDup (omap snd items) →
  (k, Some key_) ∈ items → (k', Some key_) ∈ items → k = k'.
Proof.
  induction items as [|[old new] items IH]; intros Hnd Hk Hk'.
  { by apply elem_of_nil in Hk. }
  assert (NoDup (omap snd items) ∧
          (new = Some key_ → ∀ k0, (k0, Some key_) ∈ items → False))
    as [Hnd' Hfresh].
  { destruct new as [new|]; cbn in Hnd; [|done].
    apply NoDup_cons in Hnd as [Hout Hnd]. split; [done|].
    intros [= ->] k0 Hin. apply Hout, list_elem_of_omap.
    by exists (k0, Some key_). }
  apply elem_of_cons in Hk as [Hk|Hk]; apply elem_of_cons in Hk' as [Hk'|Hk'].
  - congruence.
  - destruct (Hfresh ltac:(congruence) k' Hk').
  - destruct (Hfresh ltac:(congruence) k Hk).
  - by apply IH.
Qed.

(** Without two deprecated keywords aimed at one new name, the check
    passes. *)
Lemma check_conflicts_passes kwargs :
  NoDup (targets keywords kwargs) → check_conflicts keywords fname kwargs = inr ().
Proof.
  intros Hnd. unfold check_conflicts.
  rewrite find_conflict_None; [done|].
  intros key_. rewrite count_appearances_spec. by apply NoDup_count.
Qed.

Lemma present_elem kwargs k new :
  dmem k kwargs = true → dget k keywords = Some new →
  (k, new) ∈ present keywords kwargs.
Proof.
  intros Hmem Hget. unfold present.
  apply list_elem_of_In, filter_In. split; [|done].
  by apply list_elem_of_In, dget_elem.
Qed.

(** Two deprecated keywords of the call with one new name make the check
    fail: the wrapped function is not reached. *)
Lemma find_conflict_Some (values : list (option string))
    (counts : gmap (option string) nat) key_ :
  Some key_ ∈ values → (1 < counts !!! Some key_)%nat →
  ∃ key', find_conflict values counts = Some key'.
Proof.
  intros Hin Hlt.
  induction values as [|[key'|] values IH]; cbn [find_conflict].
  - by apply elem_of_nil in Hin.
  - destruct (Nat.ltb_spec 1 (counts !!! Some key')) as [_|Hle]; [by eauto|].
    apply IH. apply elem_of_cons in Hin as [[= ->]|Hin]; [lia|done].
  - apply IH. by apply elem_of_cons in Hin as [?|Hin].
Qed.

Lemma count_two (items : dict (option string)) k k' key_ :
  k ≠ k' → (k, Some key_) ∈ items → (k', Some key_) ∈ items →
  (1 < length (List.filter (λ item, bool_decide (item.2 = Some key_)) items))%nat.
Proof.
  assert (∀ (l : dict (option string)) k0, (k0, Some key_) ∈ l →
    (0 < length (List.filter (λ item, bool_decide (item.2 = Some key_)) l))%nat)
    as Hone.
  { intros l k0. induction l as [|[old new] l IH]; [by intros ?%elem_of_nil|].
    intros Hin. cbn [List.filter snd].
    destruct (decide (new = Some key_)) as [->|Hne].
    - rewrite bool_decide_eq_true_2 by done. cbn. lia.
    - rewrite bool_decide_eq_false_2 by done.
      apply IH. apply elem_of_cons in Hin as [?|?]; [congruence|done]. }
  intros Hne. induction items as [|[old new] items IH];
    [by intros ?%elem_of_nil|].
  intros Hk Hk'. cbn [List.filter snd].
  destruct (decide (new = Some key_)) as [->|Hnew].
  - rewrite bool_decide_eq_true_2 by done. cbn.
    apply elem_of_cons in Hk as [Hk|Hk].
    + apply elem_of_cons in Hk' as [Hk'|Hk']; [congruence|].
      pose proof (Hone _ _ Hk'). lia.
    + pose proof (Hone _ _ Hk). lia.
  - rewrite bool_decide_eq_false_2 by done.
    apply elem_of_cons in Hk as [?|Hk]; [congruence|].
    apply elem_of_cons in Hk' as [?|Hk']; [congruence|]. by apply IH.
Qed.

Lemma conflict_raises (func : list V → dict V → A) (args : list V) kwargs
    k k' nkw :
  k ≠ k' →
  dmem k kwargs = true → dget k keywords = Some (Some nkw) →
  dmem k' kwargs = true → dget k' keywords = Some (Some nkw) →
  ∃ key_, echo_func keywords fname func args kwargs =
          inl (conflict_error keywords fname key_).
Proof.
  intros Hne Hmem Hk Hmem' Hk'.
  destruct (find_conflict_Some (map snd keywords)
              (count_appearances keywords kwargs) nkw) as [key_ Hfound].
  - apply dget_elem in Hk. apply list_elem_of_In, in_map_iff.
    exists (k, Some nkw). split; [done|]. by apply list_elem_of_In.
  - rewrite count_appearances_spec.
    apply (count_two _ k k'); [done|by apply present_elem..].
  - exists key_. unfold echo_func, check_conflicts. by rewrite Hfound.
Qed.

(** *** The renaming loop *)

Abbreviation renaming := (map_keywords (V:=V) keywords fname).

(** The loop runs through when every key of the snapshot is still there. *)
Lemma map_keywords_runs ks d ws :
  NoDup ks → (∀ k, k ∈ ks → is_Some (dget k d)) →
  ∃ d' ws', renaming ks d ws = inr (d', ws').
Proof.
  intros Hnd. revert d ws.
  induction Hnd as [|kw ks Hout Hnd IH]; intros d ws Hin; cbn; [by eauto|].
  assert (∀ d1, (∀ k, k ≠ kw → is_Some (dget k d) → is_Some (dget k d1)) →
                ∀ k, k ∈ ks → is_Some (dget k d1)) as Hrest.
  { intros d1 Hd1 k Hk. apply Hd1; [by intros ->|]. apply Hin. by right. }
  destruct (Hin kw) as [v Hv]; [by left|].
  destruct (dget kw keywords) as [[nkw|]|].
  - rewrite Hv. unfold dmem. rewrite dget_dset.
    assert (is_Some (if decide (kw = nkw) then Some v else dget kw d)) as [? ->]
      by (case_decide; by eauto).
    apply IH, Hrest. intros k Hne Hk.
    rewrite dget_ddel, decide_False, dget_dset by done.
    case_decide; by eauto.
  - unfold dmem. rewrite Hv. apply IH, Hrest. intros k Hne Hk.
    by rewrite dget_ddel, decide_False.
  - apply IH. intros k Hk. apply Hin. by right.
Qed.

(** A key that is neither treated nor aimed at keeps its value. *)
Lemma map_keywords_frame ks d ws d' ws' x :
  renaming ks d ws = inr (d', ws') →
  (x ∈ ks → dget x keywords = None) →
  (∀ k, k ∈ ks → dget k keywords ≠ Some (Some x)) →
  dget x d' = dget x d.
Proof.
  revert d ws.
  induction ks as [|kw ks IH]; intros d ws; cbn; [by intros [= -> _]|].
  intros Hrun Hx Htarget.
  assert (x ∈ ks → dget x keywords = None) as Hx'
    by (intros ?; apply Hx; by right).
  assert (∀ k, k ∈ ks → dget k keywords ≠ Some (Some x)) as Htarget'
    by (intros ? ?; apply Htarget; by right).
  destruct (dget kw keywords) as [[nkw|]|] eqn:Hkw.
  - destruct (dget kw d) as [v|]; [|done].
    destruct (dmem kw (dset nkw v d)); [|done].
    rewrite (IH _ _ Hrun Hx' Htarget').
    rewrite dget_ddel, dget_dset.
    rewrite decide_False by (intros ->; rewrite Hx in Hkw; [done|by left]).
    rewrite decide_False; [done|].
    intros ->. by apply (Htarget kw); [left|].
  - destruct (dmem kw d); [|done].
    rewrite (IH _ _ Hrun Hx' Htarget').
    rewrite dget_ddel.
    by rewrite decide_False by (intros ->; rewrite Hx in Hkw; [done|by left]).
  - by apply (IH _ _ Hrun).
Qed.

(** A deprecated keyword of the call is gone afterwards, unless it is also
    a new name some keyword is renamed to. *)
Lemma map_keywords_deleted ks d ws d' ws' k :
  NoDup ks →
  renaming ks d ws = inr (d', ws') →
  k ∈ ks → is_Some (dget k keywords) →
  (∀ k0, k0 ∈ ks → dget k0 keywords ≠ Some (Some k)) →
  dget k d' = None.
Proof.
  intros Hnd. revert d ws.
  induction Hnd as [|kw ks Hout Hnd IH]; intros d ws; cbn;
    [by intros _ ?%elem_of_nil|].
  intros Hrun Hk Hdep Htarget.
  assert (∀ k0, k0 ∈ ks → dget k0 keywords ≠ Some (Some k)) as Htarget'
    by (intros ? ?; apply Htarget; by right).
  apply elem_of_cons in Hk as [->|Hk].
  - destruct Hdep as [new Hnew]. rewrite Hnew in Hrun.
    destruct new as [nkw|].
    + destruct (dget kw d) as [v|]; [|done].
      destruct (dmem kw (dset nkw v d)); [|done].
      rewrite (map_keywords_frame _ _ _ _ _ kw Hrun); [|done|done].
      by rewrite dget_ddel, decide_True.
    + destruct (dmem kw d); [|done].
      rewrite (map_keywords_frame _ _ _ _ _ kw Hrun); [|done|done].
      by rewrite dget_ddel, decide_True.
  - destruct (dget kw keywords) as [[nkw|]|].
    + destruct (dget kw d) as [v|]; [|done].
      destruct (dmem kw (dset nkw v d)); [|done]. by apply (IH _ _ Hrun).
    + destruct (dmem kw d); [|done]. by apply (IH _ _ Hrun).
    + by apply (IH _ _ Hrun).
Qed.

(** The value of a renamed keyword ends up under the new name, when that
    name is no deprecated keyword itself and no other keyword of the call
    is renamed to it. *)
Lemma map_keywords_moved ks d ws d' ws' k nkw :
  NoDup ks →
  renaming ks d ws = inr (d', ws') →
  k ∈ ks → dget k keywords = Some (Some nkw) →
  dget nkw keywords = None →
  (∀ k0, k0 ∈ ks → dget k0 keywords = Some (Some nkw) → k0 = k) →
  (∀ k0, k0 ∈ ks → dget k0 keywords ≠ Some (Some k)) →
  dget nkw d' = dget k d.
Proof.
  intros Hnd. revert d ws.
  induction Hnd as [|kw ks Hout Hnd IH]; intros d ws; cbn;
    [by intros _ ?%elem_of_nil|].
  intros Hrun Hk Hnew Hfresh Honly Htarget.
  assert (∀ k0, k0 ∈ ks → dget k0 keywords = Some (Some nkw) → k0 = k)
    as Honly' by (intros ? ? ?; apply Honly; [by right|done]).
  assert (∀ k0, k0 ∈ ks → dget k0 keywords ≠ Some (Some k)) as Htarget'
    by (intros ? ?; apply Htarget; by right).
  apply elem_of_cons in Hk as [->|Hk].
  - rewrite Hnew in Hrun.
    destruct (dget kw d) as [v|]; [|done].
    destruct (dmem kw (dset nkw v d)); [|done].
    rewrite (map_keywords_frame _ _ _ _ _ nkw Hrun).
    + rewrite dget_ddel, dget_dset.
      rewrite decide_False by (intros ->; congruence).
      by rewrite decide_True.
    + done.
    + intros k0 Hk0 Hk0new. apply Hout. by rewrite <- (Honly' k0 Hk0 Hk0new).
  - assert (k ≠ kw) as Hne by (by intros ->).
    destruct (dget kw keywords) as [[nkw'|]|] eqn:Hkw.
    + destruct (dget kw d) as [v|]; [|done].
      destruct (dmem kw (dset nkw' v d)); [|done].
      rewrite (IH _ _ Hrun Hk Hnew Hfresh Honly' Htarget').
      rewrite dget_ddel, dget_dset, decide_False by done.
      rewrite decide_False; [done|].
      intros ->. by apply (Htarget kw); [left|].
    + destruct (dmem kw d); [|done].
      rewrite (IH _ _ Hrun Hk Hnew Hfresh Honly' Htarget').
      by rewrite dget_ddel, decide_False.
    + by apply (IH _ _ Hrun).
Qed.

(** One warning per deprecated keyword of the call, in call order. *)
Lemma map_keywords_warnings ks d ws d' ws' :
  renaming ks d ws = inr (d', ws') →
  ws' = ws ++ omap (warning_of keywords fname) ks.
Proof.
  revert d ws.
  induction ks as [|kw ks IH]; intros d ws; cbn.
  { intros [= _ ->]. by rewrite app_nil_r. }
  unfold warning_of at 1.
  destruct (dget kw keywords) as [[nkw|]|]; cbn.
  - destruct (dget kw d) as [v|]; [|done].
    destruct (dmem kw (dset nkw v d)); [|done].
    intros ->%IH. by rewrite <- app_assoc.
  - destruct (dmem kw d); [|done].
    intros ->%IH. by rewrite <- app_assoc.
  - apply IH.
Qed.

(** *** The wrapper *)

(** C9, as the code has it: when no two deprecated keywords of the call aim
    at one new name, and no keyword of the call is renamed to a name that is
    itself deprecated, the wrapped function is called with keywords in which
    every deprecated keyword without replacement is gone, the value of every
    other deprecated keyword sits under its new name (whatever was there
    before) and not under the old one, and every keyword that is neither
    deprecated nor a new name in use has its value untouched; one warning
    per deprecated keyword of the call is given, in call order. *)
Theorem C9_keywords_renamed (func : list V → dict V → A) (args : list V) kwargs :
  NoDup (dkeys kwargs) →
  NoDup (targets keywords kwargs) →
  (∀ k nkw, dmem k kwargs = true → dget k keywords = Some (Some nkw) →
            dget nkw keywords = None) →
  ∃ kwargs',
    echo_func keywords fname func args kwargs =
      inr (func args kwargs', omap (warning_of keywords fname) (dkeys kwargs)) ∧
    (∀ k, dmem k kwargs = true → dget k keywords = Some None →
          dget k kwargs' = None) ∧
    (∀ k nkw, dmem k kwargs = true → dget k keywords = Some (Some nkw) →
              dget nkw kwargs' = dget k kwargs ∧ dget k kwargs' = None) ∧
    (∀ k, dget k keywords = None →
          (∀ k0, dmem k0 kwargs = true → dget k0 keywords ≠ Some (Some k)) →
          dget k kwargs' = dget k kwargs).
Proof.
  intros Hkeys Hnd Hchain.
  destruct (map_keywords_runs (dkeys kwargs) kwargs [] Hkeys) as (d' & ws' & Hrun).
  { intros k. by rewrite dkeys_dget. }
  pose proof (map_keywords_warnings _ _ _ _ _ Hrun) as Hws. cbn in Hws.
  assert (∀ k k0, k0 ∈ dkeys kwargs → dget k0 keywords = Some (Some k) →
                  dget k keywords = None) as Hchain'.
  { intros k k0 Hk0. apply Hchain. by apply dmem_dget, dkeys_dget. }
  exists d'. split_and!.
  - unfold echo_func. by rewrite check_conflicts_passes, Hrun, Hws.
  - intros k Hmem Hk.
    apply (map_keywords_deleted _ _ _ _ _ k Hkeys Hrun).
    + by apply dkeys_dget, dmem_dget.
    + by eexists.
    + intros k0 Hk0 Hk0k. by rewrite (Hchain' k k0) in Hk.
  - intros k nkw Hmem Hk.
    assert (k ∈ dkeys kwargs) as Hin by (by apply dkeys_dget, dmem_dget).
    assert (∀ k0, k0 ∈ dkeys kwargs → dget k0 keywords ≠ Some (Some k))
      as Hnotarget.
    { intros k0 Hk0 Hk0k. by rewrite (Hchain' k k0) in Hk. }
    split.
    + apply (map_keywords_moved _ _ _ _ _ k nkw Hkeys Hrun); try done.
      * by apply (Hchain k).
      * intros k0 Hk0 Hk0n.
        apply (NoDup_same_target (present keywords kwargs) k0 k nkw Hnd).
        -- apply present_elem; [|done]. by apply dmem_dget, dkeys_dget.
        -- by apply present_elem.
    + apply (map_keywords_deleted _ _ _ _ _ k Hkeys Hrun);
        first [done | by eexists].
  - intros k Hk Hnotarget.
    apply (map_keywords_frame _ _ _ _ _ k Hrun); [done|].
    intros k0 Hk0. apply Hnotarget. by apply dmem_dget, dkeys_dget.
Qed.

End DecoratorFacts.

(** ** The wrapper at concrete calls *)

Section Instances.

Import Examples.

(** C5: two deprecated keywords of the call aim at [x]; the exception
    lists them but tells to use [y], the new name of the last entry of the
    table, which the first loop leaves in [new_key]. *)
Theorem C5_conflict_names_last_new_key :
  let kwargs := [("a", 1%Z); ("b", 2%Z)] in
  targets two_for_x kwargs = ["x"; "x"] ∧
  find_conflict (map snd two_for_x) (count_appearances two_for_x kwargs) =
    Some "x" ∧
  echo_func two_for_x "read" kept [] kwargs =
    inl (Exception
           ("Conflicting deprecated keywords (a, b) in read() call" +:+
            " - please use new 'y' keyword instead.")).
Proof. vm_compute. done. Qed.

Lemma C9_witness :
  ∃ kwargs',
    echo_func renamed "read" kept []
      [("a", 1%Z); ("x", 5%Z); ("d", 2%Z); ("z", 7%Z)] =
      inr (kwargs',
           ["Deprecated keyword a in read() call - please use x instead.";
            "Deprecated keyword d in read() call - ignoring."]) ∧
    dget "d" kwargs' = None ∧
    dget "x" kwargs' = Some 1%Z ∧
    dget "a" kwargs' = None ∧
    dget "z" kwargs' = Some 7%Z.
Proof.
  destruct (C9_keywords_renamed renamed "read" kept []
              [("a", 1%Z); ("x", 5%Z); ("d", 2%Z); ("z", 7%Z)])
    as (kwargs' & Hcall & Hdropped & Hmoved & Hkept).
  - compute_done.
  - compute_done.
  - intros k nkw _. cbn.
    destruct (String.eqb_spec k "a"); [by intros [= <-]|].
    destruct (String.eqb_spec k "d"); discriminate.
  - exists kwargs'. split_and!.
    + exact Hcall.
    + by apply Hdropped.
    + by apply (Hmoved "a" "x").
    + by apply (Hmoved "a" "x").
    + apply Hkept; [done|]. intros k0 _. cbn.
      destruct (String.eqb_spec k0 "a"); [discriminate|].
      destruct (String.eqb_spec k0 "d"); discriminate.
Defined.

(** A table that renames [a] to [b] and [b] to [c], and a call that uses
    both: no two keywords aim at one new name, yet the value of [a] ends up
    under [c], nothing is left under [b] and the value of [b] is lost. *)
Lemma C9_counterexample :
  let kwargs := [("a", 1%Z); ("b", 2%Z)] in
  NoDup (targets chained kwargs) ∧
  check_conflicts chained "read" kwargs = inr () ∧
  echo_func chained "read" kept [] kwargs =
    inr ([("c", 1%Z)],
         ["Deprecated keyword a in read() call - please use b instead.";
          "Deprecated keyword b in read() call - please use c instead."]) ∧
  dget "b" [("c", 1%Z)] ≠ dget "a" kwargs ∧
  dget "c" [("c", 1%Z)] ≠ dget "b" kwargs.
Proof. split_and!; [compute_done|reflexivity|reflexivity|discriminate..]. Qed.

End Instances.

End KeywordsFacts.

(** * Facts about [uncompress_file] *)

Module UncompressFacts.
Import Uncompress.

Section Facts.

Context {R E St : Type}.
Variable tmpname : nat → string.
Variable combine : option R → option R → E + option R.
Variable func :
  farg → list pyval → gmap string pyval → option bytes → St
  → (E + option R) * St.

Implicit Types (w : World St) (args : list pyval)
  (kwargs : gmap string pyval) (result : option R).

(** One turn of the loop, spelled out: the file is created, written, read by
    [func] and deleted, whatever [func] and [+=] do. *)
Lemma dispatch_step obj rest args kwargs result w :
  dispatch tmpname combine func (obj :: rest) args kwargs result w =
  let name := tmpname (next_tmp w) in
  let r := func (ArgStr name) args kwargs (Some obj) (reader_state w) in
  let w1 := {| files := files w; temps := delete name (temps w);
               next_tmp := S (next_tmp w); reader_state := r.2 |} in
  let tr1 := [EvTmpCreate name; EvTmpWrite name obj;
              EvCall (ArgStr name) args kwargs (Some obj) r.1;
              EvTmpDelete name] in
  match r.1 with
  | inl e => Out (inl (Raised e)) w1 tr1
  | inr stream =>
      match (match result with
             | None => inr stream
             | Some _ => of_py (combine result stream)
             end) with
      | inl e => Out (inl e) w1 tr1
      | inr result' =>
          let o := dispatch tmpname combine func rest args kwargs result' w1 in
          Out (outcome o) (final o) (tr1 ++ trace o)
      end
  end.
Proof.
  cbn [dispatch]. unfold bind at 1. unfold NamedTemporaryFile.
  unfold bind, tmp_write, call, ret, iadd. cbn.
  rewrite lookup_alter_eq, lookup_insert_eq. cbn.
  destruct (func _ _ _ _ _) as [[e|stream] st]; cbn;
    rewrite ?delete_alter_eq, ?delete_insert_eq; [done|].
  destruct result as [a|]; cbn;
    rewrite ?delete_alter_eq, ?delete_insert_eq; [|done].
  destruct (combine _ _) as [e|result']; cbn;
    rewrite ?delete_alter_eq, ?delete_insert_eq; done.
Qed.

(** [uncompress_file] by cases on its guards. *)
Lemma uncompress_file_unfold filename args kwargs w :
  uncompress_file tmpname combine func filename args kwargs w =
  if negb (checks kwargs) then call func filename args (forwarded kwargs) w
  else
    match filename with
    | ArgStr f =>
        match files w !! f with
        | None => Out (inl (IOError ("File not found '" +:+ f +:+ "'"))) w
                      [EvExists f]
        | Some fv =>
            let o :=
              match sniffed f fv with
              | inl what => Out (inl (LibraryError what)) w []
              | inr (Some (obj :: rest)) =>
                  dispatch tmpname combine func (obj :: rest) args
                    (forwarded kwargs) None w
              | inr _ => call func filename args (forwarded kwargs) w
              end in
            Out (outcome o) (final o) (EvExists f :: EvSniff f :: trace o)
        end
    | _ => call func filename args (forwarded kwargs) w
    end.
Proof.
  unfold uncompress_file, checks, forwarded.
  destruct (negb _); [done|].
  destruct filename as [f| |]; try done.
  unfold bind, stat, tell, raise; cbn.
  destruct (files w !! f) as [fv|]; cbn; [|done].
  destruct (sniffed f fv) as [what|[[|obj rest]|]]; cbn; [done|..];
    match goal with |- context [outcome ?o] => destruct (outcome o) end; done.
Qed.

(** A direct invocation: one event, no temporary file. *)
Lemma call_unfold a args kwargs w :
  call func a args kwargs w =
  let seen := match a with ArgStr f => temps w !! f | _ => None end in
  let r := func a args kwargs seen (reader_state w) in
  Out (of_py r.1)
      {| files := files w; temps := temps w; next_tmp := next_tmp w;
         reader_state := r.2 |}
      [EvCall a args kwargs seen r.1].
Proof. unfold call. by destruct (func _ _ _ _ _). Qed.

(** *** The loop and the keyword arguments *)

Lemma dispatch_kwargs objs args kwargs result w :
  kwargs !! "check_compression" = None →
  Forall lacks_check_compression
    (trace (dispatch tmpname combine func objs args kwargs result w)).
Proof.
  intros Hk. revert result w.
  induction objs as [|obj rest IH]; intros result w; [by constructor|].
  rewrite dispatch_step; cbn zeta.
  assert (Forall (@lacks_check_compression R E)
           [EvTmpCreate (tmpname (next_tmp w));
            EvTmpWrite (tmpname (next_tmp w)) obj;
            EvCall (ArgStr (tmpname (next_tmp w))) args kwargs (Some obj)
              (func (ArgStr (tmpname (next_tmp w))) args kwargs (Some obj)
                 (reader_state w)).1;
            EvTmpDelete (tmpname (next_tmp w))]) as Htr1
    by (repeat constructor; exact Hk).
  destruct (func _ _ _ _ _).1 as [e|stream]; [exact Htr1|].
  destruct (match result with None => _ | Some _ => _ end) as [e|result'];
    [exact Htr1|].
  cbn [trace]. apply Forall_app; split; [exact Htr1|apply IH].
Qed.

(** *** The loop and the temporary files *)

Lemma dispatch_temps objs args kwargs result w :
  let o := dispatch tmpname combine func objs args kwargs result w in
  (∀ name, name ∈ created (trace o) → temps (final o) !! name = None) ∧
  (∀ name, name ∉ created (trace o) →
           temps (final o) !! name = temps w !! name) ∧
  deleted (trace o) = created (trace o).
Proof.
  revert result w.
  induction objs as [|obj rest IH]; intros result w.
  { cbn. split_and!; [by intros ? ?%elem_of_nil|done|done]. }
  cbn zeta. rewrite dispatch_step; cbn zeta.
  set (name := tmpname (next_tmp w)).
  set (r := func _ _ _ _ _).
  assert (∀ w1 : World St, temps w1 = delete name (temps w) →
     (∀ n, n ∈ [name] → temps w1 !! n = None) ∧
     (∀ n, n ∉ [name] → temps w1 !! n = temps w !! n)) as Hone.
  { intros w1 ->. split.
    - intros n ->%list_elem_of_singleton. apply lookup_delete_eq.
    - intros n Hn. apply lookup_delete_ne. intros ->. apply Hn. by left. }
  destruct (r.1) as [e|stream].
  { cbn. destruct (Hone {| files := files w; temps := delete name (temps w);
       next_tmp := S (next_tmp w); reader_state := r.2 |} eq_refl).
    split_and!; done. }
  destruct (match result with None => _ | Some _ => _ end) as [e|result'].
  { cbn. destruct (Hone {| files := files w; temps := delete name (temps w);
       next_tmp := S (next_tmp w); reader_state := r.2 |} eq_refl).
    split_and!; done. }
  set (w1 := {| files := files w; temps := delete name (temps w);
                next_tmp := S (next_tmp w); reader_state := r.2 |}).
  destruct (IH result' w1) as (Hgone & Hkept & Hdel).
  destruct (Hone w1 eq_refl) as [Hgone1 Hkept1].
  cbn [trace final]. cbn [app created deleted omap list_omap]. cbn.
  fold (created (trace (dispatch tmpname combine func rest args kwargs result' w1))).
  fold (deleted (trace (dispatch tmpname combine func rest args kwargs result' w1))).
  split_and!.
  - intros n Hn.
    destruct (decide (n ∈ created (trace
               (dispatch tmpname combine func rest args kwargs result' w1))))
      as [Hin|Hout]; [by apply Hgone|].
    rewrite (Hkept n Hout). apply Hgone1.
    apply elem_of_cons in Hn as [->|Hn]; [by left|done].
  - intros n Hn. apply not_elem_of_cons in Hn as [Hne Hn].
    rewrite (Hkept n Hn). apply Hkept1.
    by intros ->%list_elem_of_singleton.
  - by rewrite Hdel.
Qed.

(** *** The loop and a reader that raises *)

Lemma dispatch_raise objs args kwargs result w e :
  let o := dispatch tmpname combine func objs args kwargs result w in
  inl e ∈ results (trace o) → outcome o = inl (Raised e).
Proof.
  revert result w.
  induction objs as [|obj rest IH]; intros result w; cbn zeta.
  { cbn. by intros ?%elem_of_nil. }
  rewrite dispatch_step; cbn zeta.
  set (name := tmpname (next_tmp w)).
  set (r := func _ _ _ _ _).
  destruct (r.1) as [e'|stream] eqn:Hr.
  { cbn. intros Hin%list_elem_of_singleton. by simplify_eq. }
  destruct (match result with None => _ | Some _ => _ end) as [e'|result'].
  { cbn. intros Hin%list_elem_of_singleton. by simplify_eq. }
  cbn. intros Hin. apply elem_of_cons in Hin as [?|Hin]; [done|].
  by apply IH.
Qed.

(** *** The whole decorator *)

Abbreviation run := (uncompress_file tmpname combine func).

Lemma forwarded_lacks kwargs :
  forwarded kwargs !! "check_compression" = None.
Proof. apply lookup_delete_eq. Qed.

(** What a run amounts to when nothing is dispatched. *)
Lemma direct_facts a args kwargs w (pre : list (event R E)) :
  filter is_call pre = [] → created pre = [] →
  let o := call func a args (forwarded kwargs) w in
  let seen := match a with ArgStr f => temps w !! f | _ => None end in
  let r := (func a args (forwarded kwargs) seen (reader_state w)).1 in
  created (pre ++ trace o) = [] ∧
  calls (pre ++ trace o) = [EvCall a args (forwarded kwargs) seen r] ∧
  outcome o = of_py r.
Proof.
  intros Hcalls Hcreated. cbn zeta. rewrite call_unfold; cbn zeta; cbn.
  unfold calls, created in *. rewrite filter_app, omap_app, Hcalls, Hcreated.
  done.
Qed.

(** C3: every temporary file a run creates is deleted by the time the run
    returns or raises: none of the created names is live in the final state
    and the deletions follow the creations one for one.  When the reader
    raises, on whichever payload, the run raises that very exception. *)
Theorem C3_temporary_files_deleted filename args kwargs w :
  let o := run filename args kwargs w in
  (∀ name, name ∈ created (trace o) → temps (final o) !! name = None) ∧
  deleted (trace o) = created (trace o) ∧
  (∀ e, inl e ∈ results (trace o) → outcome o = inl (Raised e)).
Proof.
  cbn zeta. rewrite uncompress_file_unfold.
  assert (∀ a, let o := call func a args (forwarded kwargs) w in
    (∀ name, name ∈ created (trace o) → temps (final o) !! name = None) ∧
    deleted (trace o) = created (trace o) ∧
    (∀ e, inl e ∈ results (trace o) → outcome o = inl (Raised e))) as Hcall.
  { intros a. cbn zeta. rewrite call_unfold; cbn zeta; cbn.
    split_and!; [by intros ? ?%elem_of_nil|done|].
    intros e He%list_elem_of_singleton. by rewrite <- He. }
  destruct (negb (checks kwargs)); [apply Hcall|].
  destruct filename as [f| |]; [|apply Hcall..].
  destruct (files w !! f) as [fv|].
  2:{ cbn. split_and!; [by intros ? ?%elem_of_nil|done|].
      by intros ? ?%elem_of_nil. }
  cbn zeta. cbn [outcome final trace].
  change (created (EvExists f :: EvSniff f :: ?tr)) with (created tr).
  change (deleted (EvExists f :: EvSniff f :: ?tr)) with (deleted tr).
  change (results (EvExists f :: EvSniff f :: ?tr)) with (results tr).
  destruct (sniffed f fv) as [what|[[|obj rest]|]];
    [|apply Hcall| |apply Hcall].
  { cbn. split_and!; [by intros ? ?%elem_of_nil|done|].
    by intros ? ?%elem_of_nil. }
  destruct (dispatch_temps (obj :: rest) args (forwarded kwargs) None w)
    as (Hgone & _ & Hdel).
  split_and!; [exact Hgone|exact Hdel|].
  intros e. apply dispatch_raise.
Qed.

(** C10: whichever way a run takes, the reader is never given the
    [check_compression] keyword. *)
Theorem C10_check_compression_removed filename args kwargs w :
  Forall lacks_check_compression (trace (run filename args kwargs w)).
Proof.
  rewrite uncompress_file_unfold.
  assert (∀ a, Forall (@lacks_check_compression R E)
                 (trace (call func a args (forwarded kwargs) w))) as Hcall.
  { intros a. rewrite call_unfold; cbn.
    repeat constructor. apply forwarded_lacks. }
  destruct (negb (checks kwargs)); [apply Hcall|].
  destruct filename as [f| |]; [|apply Hcall..].
  destruct (files w !! f) as [fv|]; [|by repeat constructor].
  cbn [trace]. do 2 (constructor; [exact I|]).
  destruct (sniffed f fv) as [what|[[|obj rest]|]];
    [by constructor|apply Hcall| |apply Hcall].
  apply dispatch_kwargs, forwarded_lacks.
Qed.

(** C8: a [str] that names no file makes a checking run raise [IOError]
    right after the existence test: no format is probed, the reader is not
    invoked and nothing else changes. *)
Theorem C8_missing_file_not_found f args kwargs w :
  checks kwargs = true →
  files w !! f = None →
  run (ArgStr f) args kwargs w =
  Out (inl (IOError ("File not found '" +:+ f +:+ "'"))) w [EvExists f].
Proof.
  intros Hc Hf. rewrite uncompress_file_unfold, Hc, Hf. done.
Qed.


(** C4, as the code has it: a checking run on a [str] that names a file
    probes the format of that file; a first argument that is not a [str],
    a [pathlib.Path] as much as an open file, goes to the reader as it is,
    without any probe. *)
Theorem C4_only_str_is_sniffed filename args kwargs w :
  (∀ f fv, filename = ArgStr f → checks kwargs = true →
           files w !! f = Some fv →
           EvSniff f ∈ trace (run filename args kwargs w)) ∧
  ((∀ f, filename ≠ ArgStr f) →
   run filename args kwargs w = call func filename args (forwarded kwargs) w ∧
   trace (run filename args kwargs w) =
     [EvCall filename args (forwarded kwargs) None
        (func filename args (forwarded kwargs) None (reader_state w)).1]).
Proof.
  split.
  - intros f fv -> Hc Hf. rewrite uncompress_file_unfold, Hc, Hf. cbn.
    right. left.
  - intros Hns.
    assert (run filename args kwargs w
            = call func filename args (forwarded kwargs) w) as ->.
    { rewrite uncompress_file_unfold. destruct (negb _); [done|].
      destruct filename as [f| |]; [by destruct (Hns f)|done..]. }
    split; [done|]. rewrite call_unfold.
    destruct filename as [f| |]; [by destruct (Hns f)|done..].
Qed.

(** C7, as the code has it: when [tarfile.is_tarfile] has answered, the
    extraction raises and nothing was collected before (always so for zip,
    bz2 and gzip; for tar when it breaks before the first non-empty regular
    file), a checking run creates no temporary file, invokes the reader
    once on the original path, and its outcome is that of the reader: the
    extraction error is not seen. *)
Theorem C7_failed_extraction_falls_back f fv obj_list what args kwargs w :
  checks kwargs = true →
  files w !! f = Some fv →
  extract f fv = inr (obj_list, inl what) →
  (archive_kind f fv = Some Tar → obj_list = Some []) →
  let o := run (ArgStr f) args kwargs w in
  let r := (func (ArgStr f) args (forwarded kwargs) (temps w !! f)
              (reader_state w)).1 in
  created (trace o) = [] ∧
  calls (trace o) = [EvCall (ArgStr f) args (forwarded kwargs) (temps w !! f) r] ∧
  outcome o = of_py r.
Proof.
  intros Hc Hf Hfail Htar. cbn zeta.
  rewrite uncompress_file_unfold, Hc, Hf. cbn zeta. cbn [negb outcome trace].
  assert (sniffed f fv = inr (Some [])) as ->.
  { unfold sniffed. rewrite Hfail. f_equal.
    unfold archive_kind in Htar. unfold extract in Hfail.
    destruct (is_tarfile fv) as [?|[|]]; [done|by apply Htar|].
    repeat case_match; by simplify_eq/=. }
  by apply (direct_facts (ArgStr f) args kwargs w [EvExists f; EvSniff f]).
Qed.

(** *** Archives of regular files *)

Lemma tar_members_regular datas obj_list :
  Forall (λ data, data ≠ []) datas →
  tar_members (regular_members datas) obj_list = (obj_list ++ datas, inr ()).
Proof.
  intros Hne. revert obj_list.
  induction Hne as [|data datas Hdata _ IH]; intros obj_list; cbn.
  { by rewrite app_nil_r. }
  destruct data as [|c data]; [done|].
  unfold regular_members in IH. rewrite IH. by rewrite <- app_assoc.
Qed.

(** Whatever a tar archive yields, no payload taken from it is empty. *)
Lemma tar_members_nonempty steps obj_list :
  Forall (λ data, data ≠ []) obj_list →
  Forall (λ data, data ≠ []) (tar_members steps obj_list).1.
Proof.
  revert obj_list.
  induction steps as [|[isfile [what|data]|what] rest IH]; intros obj_list Hne;
    cbn; try done.
  - destruct (negb isfile); cbn; [by apply IH|done].
  - destruct (negb isfile); cbn; [by apply IH|].
    destruct data as [|c data]; [by apply IH|].
    apply IH, Forall_app; split; [done|]. by repeat constructor.
Qed.

Lemma calls_payloads (tr : list (event R E)) :
  length (calls tr) = length (payloads tr).
Proof.
  induction tr as [|[] tr IH]; cbn; try done.
  rewrite decide_True by done. cbn. f_equal. exact IH.
Qed.

(** The loop with a seeded aggregate, when every result and every
    combination is an object other than [None]. *)
Lemma dispatch_merge datas args kwargs a w rs :
  let o := dispatch tmpname combine func datas args kwargs (Some a) w in
  results (trace o) = map (λ r, inr (Some r)) rs →
  steady_from combine a rs = true →
  payloads (trace o) = map Some datas ∧
  outcome o = of_py (fold_combine combine (Some a) (map Some rs)).
Proof.
  revert a w rs.
  induction datas as [|data rest IH]; intros a w rs; cbn zeta.
  { cbn. destruct rs; [done|discriminate]. }
  rewrite dispatch_step; cbn zeta.
  destruct (func _ _ _ _ _).1 as [e|stream].
  { cbn. destruct rs; discriminate. }
  destruct (of_py (combine (Some a) stream)) as [e|result'] eqn:Hcomb.
  - cbn. destruct rs as [|r [|? ?]]; try discriminate.
    intros [= ->]. cbn. unfold of_py in Hcomb.
    destruct (combine (Some a) (Some r)) as [?|[?|]]; discriminate.
  - cbn [trace outcome].
    change (results (?e1 :: ?e2 :: EvCall ?x1 ?x2 ?x3 ?x4 ?r :: ?e3 :: ?tr))
      with (r :: results tr).
    change (payloads (?e1 :: ?e2 :: EvCall ?x1 ?x2 ?x3 ?x4 ?r :: ?e3 :: ?tr))
      with (x4 :: payloads tr).
    destruct rs as [|r rs]; [discriminate|].
    intros [= -> Hres]. cbn [steady_from map fold_combine].
    unfold of_py in Hcomb.
    destruct (combine (Some a) (Some r)) as [?|[a'|]]; try discriminate.
    intros Hsteady. simplify_eq.
    destruct (IH a' _ rs Hres Hsteady) as [Hp Ho].
    split; [|exact Ho]. unfold payloads in *. cbn. by rewrite Hp.
Qed.

(** C2, as the code has it: for a tar archive of N >= 1 regular files, none
    of them empty, a checking run in which every reader result and every
    combination is an object other than [None] invokes the reader N times,
    once per member in member order on a temporary file holding the
    member, and returns the results merged left to right, the first one
    seeding the aggregate. *)
Theorem C2_tar_members_merged f fv datas args kwargs w rs :
  checks kwargs = true →
  files w !! f = Some fv →
  is_tarfile fv = inr true →
  tar_open fv = inr (regular_members datas) →
  datas ≠ [] →
  Forall (λ data, data ≠ []) datas →
  let o := run (ArgStr f) args kwargs w in
  results (trace o) = map (λ r, inr (Some r)) rs →
  steady combine rs = true →
  length (calls (trace o)) = length datas ∧
  payloads (trace o) = map Some datas ∧
  outcome o = of_py (merge combine (map Some rs)).
Proof.
  intros Hc Hf Htar Hopen Hnil Hne. cbn zeta.
  rewrite calls_payloads.
  rewrite uncompress_file_unfold, Hc, Hf. cbn zeta. cbn [negb outcome trace].
  assert (sniffed f fv = inr (Some datas)) as ->.
  { unfold sniffed, extract. rewrite Htar, Hopen.
    by rewrite tar_members_regular. }
  destruct datas as [|data rest]; [done|].
  change (results (EvExists f :: EvSniff f :: ?tr)) with (results tr).
  change (payloads (EvExists f :: EvSniff f :: ?tr)) with (payloads tr).
  rewrite dispatch_step; cbn zeta.
  destruct (func _ _ _ _ _).1 as [e|stream].
  { cbn. destruct rs; discriminate. }
  cbn [trace outcome].
  change (results (?e1 :: ?e2 :: EvCall ?x1 ?x2 ?x3 ?x4 ?r :: ?e3 :: ?tr))
    with (r :: results tr).
  change (payloads (?e1 :: ?e2 :: EvCall ?x1 ?x2 ?x3 ?x4 ?r :: ?e3 :: ?tr))
    with (x4 :: payloads tr).
  destruct rs as [|r rs]; [discriminate|].
  intros [= -> Hres] Hsteady. cbn [steady] in Hsteady.
  destruct (dispatch_merge rest args (forwarded kwargs) r _ rs Hres Hsteady)
    as [Hp Ho].
  split_and!; [| |exact Ho].
  - unfold payloads in *. cbn. rewrite Hp. cbn. by rewrite !length_map.
  - unfold payloads in *. cbn. by rewrite Hp.
Qed.

End Facts.

(** ** The theorems at concrete inputs *)

Section Instances.

Import Examples.

Abbreviation run_with reader :=
  (uncompress_file (R:=nat) (E:=string) (St:=nat) tmpname add reader).

(** C1: a zip archive without the marker whose only member has no content
    ends in a reader invocation on a temporary file that holds no bytes; the
    tar branch alone skips empty members. *)
Theorem C1_empty_zip_member_reaches_reader :
  let o := run_with size_reader (ArgStr "empty.zip") [] ∅ (world disk) in
  archive_kind "empty.zip" empty_member_zip = Some Zip ∧
  created (trace o) = ["/tmp/obspy-0"] ∧
  calls (trace o) =
    [EvCall (ArgStr "/tmp/obspy-0") [] ∅ (Some []) (inr (Some 0))] ∧
  payloads (trace o) = [Some []].
Proof. vm_compute. done. Qed.

Lemma C2_witness :
  let o := run_with size_reader (ArgStr "two.tar") [] ∅ (world disk) in
  length (calls (trace o)) = 2 ∧
  payloads (trace o) = [Some (b "abc"); Some (b "de")] ∧
  outcome o = inr (Some 5).
Proof.
  apply (C2_tar_members_merged tmpname add size_reader "two.tar" two_members
           [b "abc"; b "de"] [] ∅ (world disk) [3; 2]);
    try (vm_compute; reflexivity).
  - discriminate.
  - repeat constructor; discriminate.
Defined.

(** The merge on a reader that first returns [None]: the second result takes
    the place of the aggregate, where combining [None] with it raises. *)
Lemma C2_counterexample :
  let o := run_with late_reader (ArgStr "two.tar") [] ∅ (world disk) in
  results (trace o) = [inr None; inr (Some 7)] ∧
  length (calls (trace o)) = 2 ∧
  merge add [None; Some 7] = inl "TypeError" ∧
  outcome o = inr (Some 7) ∧
  outcome o ≠ of_py (merge add [None; Some 7]).
Proof. vm_compute. split_and!; done. Qed.

Lemma C3_witness :
  let o := run_with failing_reader (ArgStr "two.tar") [] ∅ (world disk) in
  created (trace o) = ["/tmp/obspy-0"; "/tmp/obspy-1"] ∧
  temps (final o) !! "/tmp/obspy-0" = None ∧
  temps (final o) !! "/tmp/obspy-1" = None ∧
  deleted (trace o) = created (trace o) ∧
  outcome o = inl (Raised "ValueError").
Proof.
  destruct (C3_temporary_files_deleted tmpname add failing_reader
              (ArgStr "two.tar") [] ∅ (world disk)) as (Hgone & Hdel & Hraise).
  split_and!; [reflexivity| | |exact Hdel|].
  - apply Hgone. vm_compute. repeat constructor.
  - apply Hgone. vm_compute. repeat constructor.
  - apply Hraise. vm_compute. repeat constructor.
Defined.

Lemma C4_witness :
  EvSniff "data.gz" ∈
    trace (run_with size_reader (ArgStr "data.gz") [] ∅ (world disk)) ∧
  trace (run_with size_reader (ArgPath "data.gz") [] ∅ (world disk)) =
    [EvCall (ArgPath "data.gz") [] ∅ None (inr (Some 0))].
Proof.
  split.
  - apply (proj1 (C4_only_str_is_sniffed tmpname add size_reader
                    (ArgStr "data.gz") [] ∅ (world disk)) "data.gz" good_gz);
      reflexivity.
  - destruct (proj2 (C4_only_str_is_sniffed tmpname add size_reader
                       (ArgPath "data.gz") [] ∅ (world disk))) as [_ Htrace];
      [discriminate|exact Htrace].
Defined.

(** A [pathlib.Path] denotes a path, the file is there and the check is
    left on, yet nothing is probed. *)
Lemma C4_counterexample :
  let o := run_with size_reader (ArgPath "data.gz") [] ∅ (world disk) in
  path_like (ArgPath "data.gz") = Some "data.gz" ∧
  files (world disk) !! "data.gz" = Some good_gz ∧
  checks ∅ = true ∧
  EvSniff "data.gz" ∉ trace o.
Proof.
  split_and!; [reflexivity..|].
  vm_compute. intros Hin. apply list_elem_of_singleton in Hin. discriminate.
Qed.



Lemma C7_witness :
  let o := run_with size_reader (ArgStr "bad.gz") [] ∅ (world disk) in
  created (trace o) = [] ∧
  calls (trace o) = [EvCall (ArgStr "bad.gz") [] ∅ None (inr (Some 0))] ∧
  outcome o = inr (Some 0).
Proof.
  assert (archive_kind "bad.gz" plain = Some Tar
          → Some ([] : list bytes) = Some []) as Htar by done.
  exact (C7_failed_extraction_falls_back tmpname add size_reader "bad.gz"
           plain (Some []) "BadGzipFile" [] ∅ (world disk)
           eq_refl eq_refl eq_refl Htar).
Defined.

(** A tar archive that breaks after its first member: the extraction has
    raised, yet one payload is there and the reader is invoked on a
    temporary file, not on the original path. *)
Lemma C7_counterexample :
  let o := run_with size_reader (ArgStr "cut.tar") [] ∅ (world disk) in
  archive_kind "cut.tar" truncated_tar = Some Tar ∧
  extract "cut.tar" truncated_tar = inr (Some [b "abc"], inl "ReadError") ∧
  sniffed "cut.tar" truncated_tar = inr (Some [b "abc"]) ∧
  created (trace o) = ["/tmp/obspy-0"] ∧
  calls (trace o) =
    [EvCall (ArgStr "/tmp/obspy-0") [] ∅ (Some (b "abc")) (inr (Some 3))] ∧
  ¬ (∃ seen r, calls (trace o) = [EvCall (ArgStr "cut.tar") [] ∅ seen r]).
Proof.
  split_and!; try (vm_compute; reflexivity).
  intros (seen & r & Heq). vm_compute in Heq. discriminate.
Qed.

Lemma C8_witness :
  run_with size_reader (ArgStr "missing.gz") [] ∅ (world disk) =
  Out (inl (IOError "File not found 'missing.gz'")) (world disk)
      [EvExists "missing.gz"].
Proof.
  apply (C8_missing_file_not_found tmpname add size_reader "missing.gz" [] ∅
           (world disk));
    reflexivity.
Defined.

End Instances.

End UncompressFacts.

(** * More facts about [deprecated_keywords] *)

Module KeywordsMore.
Import Keywords KeywordsFacts.

Section Facts.

Context {V A : Type}.
Variable keywords : dict (option string).
Variable fname : string.

Implicit Types (kwargs d : dict V) (k kw : string) (ks : list string)
  (ws : list string).

Lemma elem_dget (items : dict (option string)) k new :
  (k, new) ∈ items → is_Some (dget k items).
Proof.
  induction items as [|[k' new'] items IH]; [by intros ?%elem_of_nil|].
  intros Hin. cbn. destruct (String.eqb_spec k k'); [by eexists|].
  apply IH. apply elem_of_cons in Hin as [?|?]; [congruence|done].
Qed.

Lemma map_keywords_skips ks d ws :
  (∀ k, k ∈ ks → dget k keywords = None) →
  map_keywords keywords fname ks d ws = inr (d, ws).
Proof.
  induction ks as [|kw ks IH]; intros Hnone; cbn; [done|].
  rewrite (Hnone kw) by left. apply IH. intros k Hk. apply Hnone. by right.
Qed.

Lemma filter_none {B : Type} (f : B → bool) (l : list B) :
  (∀ x, In x l → f x = false) → List.filter f l = [].
Proof.
  induction l as [|x l IH]; intros Hf; cbn; [done|].
  rewrite (Hf x) by (by left). apply IH. intros y Hy. apply Hf. by right.
Qed.

(** A call that uses no deprecated keyword goes through as it is: the
    wrapped function gets the very keywords of the call, and no warning is
    given. *)
Theorem unused_keywords_transparent (func : list V → dict V → A)
    (args : list V) kwargs :
  (∀ k, k ∈ dkeys kwargs → dget k keywords = None) →
  echo_func keywords fname func args kwargs = inr (func args kwargs, []).
Proof.
  intros Hnone. unfold echo_func.
  rewrite check_conflicts_passes, map_keywords_skips; [done|done|].
  assert (present keywords kwargs = []) as Hp.
  { unfold present. apply filter_none. intros [k new] Hin. cbn.
    destruct (dmem k kwargs) eqn:Hmem; [|done].
    apply list_elem_of_In, elem_dget in Hin as [? Hget].
    rewrite Hnone in Hget; [done|]. by apply dkeys_dget, dmem_dget. }
  unfold targets. rewrite Hp. constructor.
Qed.

Lemma find_conflict_found (values : list (option string))
    (counts : gmap (option string) nat) key_ :
  find_conflict values counts = Some key_ →
  values ≠ [] ∧ (1 < counts !!! Some key_)%nat.
Proof.
  induction values as [|[key'|] values IH]; cbn [find_conflict]; [done| |].
  - destruct (Nat.ltb_spec 1 (counts !!! Some key')) as [Hlt|_].
    + by intros [= <-].
    + intros Hf. by destruct (IH Hf).
  - intros Hf. by destruct (IH Hf).
Qed.

Lemma count_le_NoDup (items : dict (option string)) :
  (∀ key_, key_ ∈ omap snd items →
     (length (List.filter (λ item, bool_decide (item.2 = Some key_)) items)
      ≤ 1)%nat) →
  NoDup (omap snd items).
Proof.
  induction items as [|[old [new|]] items IH]; cbn [omap list_omap snd];
    intros Hle.
  - constructor.
  - assert (∀ key_ : string, key_ ∈ omap snd items →
     (length (List.filter (λ item, bool_decide (item.2 = Some key_))
                ((old, Some new) :: items)) ≤ 1)%nat) as Hle'
      by (intros ? ?; apply Hle; by right).
    apply NoDup_cons. split.
    + intros Hin. specialize (Hle' new Hin). cbn in Hle'.
      rewrite bool_decide_eq_true_2 in Hle' by done. cbn in Hle'.
      apply list_elem_of_omap in Hin as ([k0 t] & Hin & Ht).
      cbn in Ht. subst t.
      assert (List.filter (λ item : string * option string,
                bool_decide (item.2 = Some new)) items ≠ []) as Hne.
      { intros Hnil. apply list_elem_of_In in Hin.
        assert (In (k0, Some new) (List.filter (λ item : string * option string,
                  bool_decide (item.2 = Some new)) items)) as Hin'
          by (apply filter_In; split; [done|by apply bool_decide_eq_true_2]).
        by rewrite Hnil in Hin'. }
      destruct (List.filter _ items); [done|cbn in Hle'; lia].
    + apply IH. intros key_ Hin. specialize (Hle' key_ Hin). cbn in Hle'.
      destruct (bool_decide (Some new = Some key_)); cbn in Hle'; lia.
  - apply IH. intros key_ Hin. specialize (Hle key_ Hin). cbn in Hle.
    by rewrite bool_decide_eq_false_2 in Hle by done.
Qed.

Lemma target_is_value kwargs key_ :
  key_ ∈ targets keywords kwargs → Some key_ ∈ map snd keywords.
Proof.
  unfold targets, present.
  intros ([k t] & Hin & Ht)%list_elem_of_omap. cbn in Ht. subst t.
  apply list_elem_of_In, filter_In in Hin as [Hin _].
  apply list_elem_of_In, in_map_iff. by exists (k, Some key_).
Qed.

(** What a call can come to.  Either no two deprecated keywords of the call
    aim at one new name: then the wrapped function is called, and one
    warning is given per deprecated keyword of the call, in call order.  Or
    two do: then an [Exception] is raised whose text lists the old names of
    a new name aimed at twice and ends on the new name of the last entry of
    the table.  [KeyError] and [NameError] do not occur. *)
Theorem echo_func_outcomes (func : list V → dict V → A) (args : list V)
    kwargs :
  NoDup (dkeys kwargs) →
  (NoDup (targets keywords kwargs) ∧
   ∃ kwargs',
     echo_func keywords fname func args kwargs =
     inr (func args kwargs',
          omap (warning_of keywords fname) (dkeys kwargs))) ∨
  (¬ NoDup (targets keywords kwargs) ∧
   ∃ key_ new_key,
     last (map snd keywords) = Some new_key ∧
     echo_func keywords fname func args kwargs =
     inl (Exception
            (msg3 (String.concat ", "
                     (map fst (List.filter
                        (λ item, bool_decide (item.2 = Some key_)) keywords)))
               fname new_key))).
Proof.
  intros Hkeys. unfold echo_func, check_conflicts.
  destruct (find_conflict (map snd keywords) (count_appearances keywords kwargs))
    as [key_|] eqn:Hfind.
  - right. apply find_conflict_found in Hfind as [Hne Hlt].
    rewrite count_appearances_spec in Hlt. split.
    + intros Hnd. pose proof (NoDup_count _ key_ Hnd). lia.
    + unfold conflict_error.
      destruct (last (map snd keywords)) as [new_key|] eqn:Hlast.
      * by exists key_, new_key.
      * apply last_None in Hlast. done.
  - left.
    assert (NoDup (targets keywords kwargs)) as Hnd.
    { apply count_le_NoDup. intros key_ Hin.
      rewrite <- count_appearances_spec.
      destruct (Nat.le_gt_cases (count_appearances keywords kwargs !!! Some key_) 1)
        as [Hle|Hgt]; [done|].
      destruct (find_conflict_Some (map snd keywords)
                  (count_appearances keywords kwargs) key_) as [? Hsome];
        [by apply (target_is_value kwargs)|done|congruence]. }
    split; [done|].
    destruct (map_keywords_runs keywords fname (dkeys kwargs) kwargs [] Hkeys)
      as (d' & ws' & Hrun).
    { intros k. by rewrite dkeys_dget. }
    pose proof (map_keywords_warnings _ _ _ _ _ _ _ Hrun) as Hws.
    cbn in Hws. exists d'. by rewrite Hrun, Hws.
Qed.

(** Without conflict and without a new name that is itself deprecated, the
    wrapped function never sees a deprecated keyword, whether the call used
    it or not. *)
Theorem no_deprecated_keyword_passed_on (func : list V → dict V → A)
    (args : list V) kwargs :
  NoDup (dkeys kwargs) →
  NoDup (targets keywords kwargs) →
  (∀ k nkw, dmem k kwargs = true → dget k keywords = Some (Some nkw) →
            dget nkw keywords = None) →
  ∃ kwargs',
    echo_func keywords fname func args kwargs =
      inr (func args kwargs', omap (warning_of keywords fname) (dkeys kwargs)) ∧
    ∀ k, is_Some (dget k keywords) → dget k kwargs' = None.
Proof.
  intros Hkeys Hnd Hchain.
  destruct (map_keywords_runs keywords fname (dkeys kwargs) kwargs [] Hkeys)
    as (d' & ws' & Hrun).
  { intros k. by rewrite dkeys_dget. }
  pose proof (map_keywords_warnings _ _ _ _ _ _ _ Hrun) as Hws. cbn in Hws.
  exists d'. split.
  { unfold echo_func. by rewrite check_conflicts_passes, Hrun, Hws. }
  intros k Hdep.
  assert (∀ k0, k0 ∈ dkeys kwargs → dget k0 keywords ≠ Some (Some k))
    as Hnotarget.
  { intros k0 Hk0 Hk0k.
    rewrite (Hchain k0 k) in Hdep; [by destruct Hdep|
      by apply dmem_dget, dkeys_dget|done]. }
  destruct (decide (k ∈ dkeys kwargs)) as [Hin|Hout].
  - by apply (map_keywords_deleted keywords fname _ _ _ _ _ k Hkeys Hrun).
  - rewrite (map_keywords_frame keywords fname _ _ _ _ _ k Hrun); [|done|done].
    destruct (dget k kwargs) eqn:Hget; [|done].
    destruct Hout. apply dkeys_dget. by eexists.
Qed.

End Facts.

Section Instances.

Import Examples.

Lemma unused_keywords_transparent_witness :
  echo_func renamed "read" kept [] [("z", 7%Z)] = inr ([("z", 7%Z)], []).
Proof.
  apply (unused_keywords_transparent renamed "read" kept [] [("z", 7%Z)]).
  intros k ->%list_elem_of_singleton. reflexivity.
Defined.

Lemma echo_func_outcomes_witness :
  let kwargs := [("a", 1%Z); ("b", 2%Z)] in
  (NoDup (targets two_for_x kwargs) ∧
   ∃ kwargs',
     echo_func two_for_x "read" kept [] kwargs =
     inr (kept [] kwargs', omap (warning_of two_for_x "read") (dkeys kwargs))) ∨
  (¬ NoDup (targets two_for_x kwargs) ∧
   ∃ key_ new_key,
     last (map snd two_for_x) = Some new_key ∧
     echo_func two_for_x "read" kept [] kwargs =
     inl (Exception
            (msg3 (String.concat ", "
                     (map fst (List.filter
                        (λ item, bool_decide (item.2 = Some key_)) two_for_x)))
               "read" new_key))).
Proof.
  apply (echo_func_outcomes two_for_x "read" kept []
           [("a", 1%Z); ("b", 2%Z)]).
  compute_done.
Defined.

Lemma no_deprecated_keyword_passed_on_witness :
  ∃ kwargs',
    echo_func renamed "read" kept []
      [("a", 1%Z); ("x", 5%Z); ("d", 2%Z); ("z", 7%Z)] =
      inr (kwargs',
           ["Deprecated keyword a in read() call - please use x instead.";
            "Deprecated keyword d in read() call - ignoring."]) ∧
    ∀ k, is_Some (dget k renamed) → dget k kwargs' = None.
Proof.
  apply (no_deprecated_keyword_passed_on renamed "read" kept []
           [("a", 1%Z); ("x", 5%Z); ("d", 2%Z); ("z", 7%Z)]).
  - compute_done.
  - compute_done.
  - intros k nkw _. cbn.
    destruct (String.eqb_spec k "a"); [by intros [= <-]|].
    destruct (String.eqb_spec k "d"); discriminate.
Defined.

End Instances.

End KeywordsMore.

(** * More facts about [uncompress_file] *)

Module UncompressMore.
Import Uncompress Traces UncompressFacts.

Section Facts.

Context {R E St : Type}.
Variable tmpname : nat → string.
Variable combine : option R → option R → E + option R.
Variable func :
  farg → list pyval → gmap string pyval → option bytes → St
  → (E + option R) * St.

Implicit Types (w : World St) (args : list pyval)
  (kwargs : gmap string pyval) (result : option R).

Abbreviation run := (uncompress_file tmpname combine func).
Abbreviation loop := (dispatch tmpname combine func).

(** The events of one turn of the loop, seen through the projections. *)
Lemma turn_projections name obj a args kwargs seen (r : E + option R)
    (tr : list (event R E)) :
  let turn := [EvTmpCreate name; EvTmpWrite name obj;
               EvCall a args kwargs seen r; EvTmpDelete name] in
  created (turn ++ tr) = name :: created tr ∧
  called_on (turn ++ tr) = a :: called_on tr ∧
  payloads (turn ++ tr) = seen :: payloads tr.
Proof. done. Qed.

(** The loop never touches the files of the caller, takes fresh names one
    after the other, calls the reader on each temporary file and on nothing
    else, and hands the payloads over in order, all of them unless it is
    stopped by an exception. *)
Lemma dispatch_shape objs args kwargs result w :
  let o := loop objs args kwargs result w in
  files (final o) = files w ∧
  next_tmp (final o) = next_tmp w + length (created (trace o)) ∧
  created (trace o) =
    map tmpname (seq (next_tmp w) (length (created (trace o)))) ∧
  called_on (trace o) = map ArgStr (created (trace o)) ∧
  payloads (trace o) `prefix_of` map Some objs ∧
  (∀ v, outcome o = inr v → payloads (trace o) = map Some objs) ∧
  (objs ≠ [] → created (trace o) ≠ []) ∧
  length (payloads (trace o)) = length (created (trace o)).
Proof.
  revert result w.
  induction objs as [|obj rest IH]; intros result w; cbn zeta.
  { cbn. split_and!; try done; lia. }
  rewrite dispatch_step; cbn zeta.
  set (name := tmpname (next_tmp w)).
  set (r := func _ _ _ _ _).
  assert (created [EvTmpCreate (R:=R) (E:=E) name; EvTmpWrite name obj;
                   EvCall (ArgStr name) args kwargs (Some obj) r.1;
                   EvTmpDelete name] = [name]) as Hc by done.
  assert (called_on [EvTmpCreate (R:=R) (E:=E) name; EvTmpWrite name obj;
                     EvCall (ArgStr name) args kwargs (Some obj) r.1;
                     EvTmpDelete name] = [ArgStr name]) as Ha by done.
  assert (payloads [EvTmpCreate (R:=R) (E:=E) name; EvTmpWrite name obj;
                    EvCall (ArgStr name) args kwargs (Some obj) r.1;
                    EvTmpDelete name] = [Some obj]) as Hp by done.
  assert (Some obj :: [] `prefix_of` map Some (obj :: rest)) as Hpre
    by (apply prefix_cons, prefix_nil).
  destruct (r.1) as [e|stream].
  { cbn [outcome final trace files next_tmp]. rewrite Hc, Ha, Hp.
    split_and!; try done; cbn; lia. }
  destruct (match result with None => _ | Some _ => _ end) as [e|result'].
  { cbn [outcome final trace files next_tmp]. rewrite Hc, Ha, Hp.
    split_and!; try done; cbn; lia. }
  set (w1 := {| files := files w; temps := delete name (temps w);
                next_tmp := S (next_tmp w); reader_state := r.2 |}).
  destruct (IH result' w1)
    as (Hfiles & Hnext & Hnames & Hargs & Hprefix & Hall & _ & Hlen).
  cbn [outcome final trace].
  destruct (turn_projections name obj (ArgStr name) args kwargs (Some obj)
              (inr stream) (trace (loop rest args kwargs result' w1)))
    as (-> & -> & ->).
  split_and!.
  - exact Hfiles.
  - rewrite Hnext. cbn. lia.
  - cbn [length seq map]. f_equal. exact Hnames.
  - cbn [map]. by rewrite Hargs.
  - cbn [map]. by apply prefix_cons.
  - intros v Hv. cbn [map]. f_equal. by apply (Hall v).
  - done.
  - cbn [length]. by rewrite Hlen.
Qed.

(** A direct invocation through the projections. *)
Lemma call_shape a args kwargs w :
  let o := call func a args kwargs w in
  files (final o) = files w ∧ next_tmp (final o) = next_tmp w ∧
  temps (final o) = temps w ∧
  created (trace o) = [] ∧ called_on (trace o) = [a].
Proof. cbn zeta. rewrite call_unfold. done. Qed.

(** The reader is invoked either on the temporary files of the run, once on
    each in the order of their creation, or once on the first argument as
    it was given, with no temporary file around; never on both. *)
Theorem run_calls_temporaries_or_original filename args kwargs w :
  let o := run filename args kwargs w in
  called_on (trace o) = map ArgStr (created (trace o)) ∨
  (created (trace o) = [] ∧ called_on (trace o) = [filename]).
Proof.
  cbn zeta. rewrite uncompress_file_unfold.
  assert (∀ (pre : list (event R E)), created pre = [] → called_on pre = [] →
    let o := call func filename args (forwarded kwargs) w in
    called_on (pre ++ trace o) = map ArgStr (created (pre ++ trace o)) ∨
    (created (pre ++ trace o) = [] ∧ called_on (pre ++ trace o) = [filename]))
    as Hcall.
  { intros pre Hc Ha. cbn zeta. right.
    destruct (call_shape filename args (forwarded kwargs) w)
      as (_ & _ & _ & Hc' & Ha').
    unfold created, called_on in *.
    by rewrite !omap_app, Hc, Ha, Hc', Ha'. }
  destruct (negb (checks kwargs)); [apply (Hcall []); done|].
  destruct filename as [f| |]; [|apply (Hcall []); done..].
  destruct (files w !! f) as [fv|]; [|by left].
  cbn zeta. cbn [trace].
  destruct (sniffed f fv) as [what|[[|obj rest]|]];
    [by left|apply (Hcall [EvExists f; EvSniff f]); done|
    |apply (Hcall [EvExists f; EvSniff f]); done].
  left.
  change (called_on (EvExists f :: EvSniff f :: ?tr)) with (called_on tr).
  change (created (EvExists f :: EvSniff f :: ?tr)) with (created tr).
  apply dispatch_shape.
Qed.

(** When sniffing yields payloads, they reach the reader in the order of
    extraction, each in a temporary file of its own: the reader sees a
    beginning of the sequence, at least the first payload, and the whole
    sequence whenever the run returns. *)
Theorem run_payloads_in_order f fv objs args kwargs w :
  checks kwargs = true →
  files w !! f = Some fv →
  sniffed f fv = inr (Some objs) →
  objs ≠ [] →
  let o := run (ArgStr f) args kwargs w in
  payloads (trace o) `prefix_of` map Some objs ∧
  payloads (trace o) ≠ [] ∧
  length (created (trace o)) = length (payloads (trace o)) ∧
  (∀ v, outcome o = inr v → payloads (trace o) = map Some objs).
Proof.
  intros Hc Hf Hs Hne. cbn zeta.
  rewrite uncompress_file_unfold, Hc, Hf, Hs. cbn zeta. cbn [negb outcome trace].
  destruct objs as [|obj rest]; [done|].
  change (payloads (EvExists f :: EvSniff f :: ?tr)) with (payloads tr).
  change (created (EvExists f :: EvSniff f :: ?tr)) with (created tr).
  destruct (dispatch_shape (obj :: rest) args (forwarded kwargs) None w)
    as (_ & _ & _ & _ & Hpre & Hall & Hsome & Hlen).
  split_and!; [exact Hpre| |by rewrite Hlen|exact Hall].
  intros Hnil. apply Hsome; [done|].
  apply length_zero_iff_nil. by rewrite <- Hlen, Hnil.
Qed.

(** For a file taken for a tar archive, whatever the state of the archive,
    a payload that is replayed through a temporary file has content: either
    no temporary file is made at all, or every payload the reader sees is
    non-empty. *)
Theorem tar_payloads_have_content f fv args kwargs w :
  checks kwargs = true →
  files w !! f = Some fv →
  is_tarfile fv = inr true →
  let o := run (ArgStr f) args kwargs w in
  created (trace o) = [] ∨ Forall nonempty_payload (payloads (trace o)).
Proof.
  intros Hc Hf Htar. cbn zeta.
  assert (∃ objs, sniffed f fv = inr (Some objs)
                  ∧ Forall (λ data, data ≠ []) objs)
    as (objs & Hs & Hne).
  { unfold sniffed, extract. rewrite Htar.
    destruct (tar_open fv) as [what|steps]; [by exists []|].
    pose proof (tar_members_nonempty steps [] (Forall_nil_2 _)) as Hne.
    exists (tar_members steps []).1.
    split; [by destruct (tar_members steps [])|exact Hne]. }
  destruct objs as [|obj rest].
  - left. rewrite uncompress_file_unfold, Hc, Hf, Hs. cbn zeta. cbn [negb trace].
    change (created (EvExists f :: EvSniff f :: ?tr)) with (created tr).
    apply call_shape.
  - right.
    rewrite uncompress_file_unfold, Hc, Hf, Hs. cbn zeta. cbn [negb trace].
    change (payloads (EvExists f :: EvSniff f :: ?tr)) with (payloads tr).
    destruct (dispatch_shape (obj :: rest) args (forwarded kwargs) None w)
      as (_ & _ & _ & _ & [k Hk] & _).
    assert (Forall nonempty_payload (map Some (obj :: rest))) as Hall.
    { apply Forall_fmap. eapply Forall_impl; [exact Hne|].
      intros data Hdata. by exists data. }
    fold (fmap (M:=list) (@Some bytes)) in Hk. rewrite Hk in Hall.
    by apply Forall_app in Hall as [? _].
Qed.


(** The list comprehension over the names of a zip archive. *)
Lemma zip_read_all_spec zip names datas :
  zip_read_all zip names = inr datas ↔
  map (zip_read zip) names = map inr datas.
Proof.
  revert datas. induction names as [|name names IH]; intros datas; cbn.
  { split; [by intros [= <-]|]. by destruct datas. }
  destruct (zip_read zip name) as [what|data].
  { split; [done|]. by destruct datas. }
  destruct (zip_read_all zip names) as [what|rest].
  - split; [done|]. destruct datas as [|data' datas]; [done|].
    intros [= _ Hrest]. by apply IH in Hrest.
  - split.
    + intros [= <-]. cbn. f_equal. by apply IH.
    + destruct datas as [|data' datas]; [done|].
      intros [= -> Hrest]. apply IH in Hrest. by simplify_eq.
Qed.

Lemma tar_members_read steps obj_list :
  (tar_members steps obj_list).1
    = obj_list ++ regular_contents (read_before_failure steps) ∧
  ((tar_members steps obj_list).2 = inr ()
   ↔ read_before_failure steps = steps).
Proof.
  revert obj_list.
  induction steps as [|[isfile [what|data]|what] steps IH]; intros obj_list;
    cbn [tar_members read_before_failure step_fails].
  - by rewrite app_nil_r.
  - destruct isfile; cbn [negb].
    + by rewrite app_nil_r.
    + destruct (IH obj_list) as [Hk Hall]. split; [exact Hk|].
      rewrite Hall. split; [by intros ->|by intros [= ->]].
  - destruct isfile; cbn [negb].
    + destruct data as [|c data]; cbn beta iota.
      * destruct (IH obj_list) as [Hk Hall]. split; [exact Hk|].
        rewrite Hall. split; [by intros ->|by intros [= ->]].
      * destruct (IH (obj_list ++ [c :: data])) as [Hk Hall]. split.
        -- etrans; [exact Hk|]. cbn. by rewrite <- app_assoc.
        -- rewrite Hall. split; [by intros ->|by intros [= ->]].
    + destruct (IH obj_list) as [Hk Hall]. split; [exact Hk|].
      rewrite Hall. split; [by intros ->|by intros [= ->]].
  - by rewrite app_nil_r.
Qed.

(** The payloads of a tar archive are exactly the non-empty contents of the
    regular files that come before the first failing step of the stream, in
    stream order: directories, special members and empty files are skipped,
    what was read before a failure is kept, and nothing after it is read.
    The [try] block completes precisely when no step fails. *)
Theorem tar_payloads_are_regular_contents f fv steps :
  is_tarfile fv = inr true →
  tar_open fv = inr steps →
  sniffed f fv = inr (Some (regular_contents (read_before_failure steps))) ∧
  ∃ r, extract f fv
         = inr (Some (regular_contents (read_before_failure steps)), r) ∧
       (r = inr () ↔ read_before_failure steps = steps).
Proof.
  intros Htar Hopen. unfold sniffed, extract. rewrite Htar, Hopen.
  destruct (tar_members_read steps []) as [Hk Hall].
  destruct (tar_members steps []) as [obj_list r].
  cbn in Hk, Hall. subst obj_list. split; [done|]. by exists r.
Qed.

Lemma zip_read_all_fails zip names what :
  zip_read_all zip names = inl what →
  ∃ name, name ∈ names ∧ zip_read zip name = inl what.
Proof.
  induction names as [|name names IH]; cbn; [done|].
  destruct (zip_read zip name) as [what'|data] eqn:Hread.
  - intros [= ->]. exists name. split; [left|done].
  - destruct (zip_read_all zip names) as [what'|rest]; [|done].
    intros [= ->]. destruct (IH eq_refl) as (name' & Hin & Hfail).
    exists name'. split; [by right|done].
Qed.

(** Reading a zip archive without the marker is all or nothing: either
    every name of the archive was read and the payloads are the members,
    one per name in the order of the names, empty ones included; or the
    read of some member raised and no payload is left at all. *)
Theorem zip_members_all_or_none f fv zip :
  archive_kind f fv = Some Zip →
  zip_open fv = inr zip →
  bytes_contains obspy_no_uncompress (zip_comment zip) = false →
  (∃ datas, sniffed f fv = inr (Some datas) ∧
            map (zip_read zip) (zip_namelist zip) = map inr datas) ∨
  (sniffed f fv = inr (Some []) ∧
   ∃ name what, name ∈ zip_namelist zip ∧ zip_read zip name = inl what).
Proof.
  intros Hkind Hopen Hmark. unfold sniffed, extract.
  unfold archive_kind in Hkind.
  destruct (is_tarfile fv) as [?|[|]]; [done..|].
  destruct (is_zipfile fv); [|by repeat case_match].
  rewrite Hopen, Hmark.
  destruct (zip_read_all zip (zip_namelist zip)) as [what|datas] eqn:Hall.
  - right. split; [done|].
    destruct (zip_read_all_fails _ _ _ Hall) as (name & ? & ?).
    by exists name, what.
  - left. exists datas. split; [done|]. by apply zip_read_all_spec.
Qed.

(** A [.gz] or [.bz2] file that decompresses is replayed exactly once: one
    temporary file holding the decompressed stream, one reader invocation on
    it, and the outcome of the run is the outcome of that invocation; [+=]
    is not used. *)
Theorem compressed_stream_replayed_once f fv data args kwargs w :
  checks kwargs = true →
  files w !! f = Some fv →
  (archive_kind f fv = Some Gzip ∧ gzip_read fv = inr data) ∨
  (archive_kind f fv = Some Bzip2 ∧ bz2_decompress fv = inr data) →
  let o := run (ArgStr f) args kwargs w in
  let name := tmpname (next_tmp w) in
  let r := func (ArgStr name) args (forwarded kwargs) (Some data)
             (reader_state w) in
  trace o = [EvExists f; EvSniff f; EvTmpCreate name; EvTmpWrite name data;
             EvCall (ArgStr name) args (forwarded kwargs) (Some data) r.1;
             EvTmpDelete name] ∧
  outcome o = of_py r.1 ∧
  temps (final o) = delete name (temps w) ∧
  reader_state (final o) = r.2.
Proof.
  intros Hc Hf Hkind. cbn zeta.
  assert (sniffed f fv = inr (Some [data])) as Hs.
  { unfold sniffed, extract. unfold archive_kind in Hkind.
    destruct (is_tarfile fv) as [?|[|]];
      [by destruct Hkind as [[? _]|[? _]]..|].
    destruct (is_zipfile fv); [by destruct Hkind as [[? _]|[? _]]|].
    destruct (endswith f ".bz2").
    { destruct Hkind as [[? _]|[_ Hd]]; [done|by rewrite Hd]. }
    destruct (endswith f ".gz").
    { destruct Hkind as [[_ Hd]|[? _]]; [by rewrite Hd|done]. }
    by destruct Hkind as [[? _]|[? _]]. }
  rewrite uncompress_file_unfold, Hc, Hf, Hs. cbn zeta. cbn [negb].
  rewrite dispatch_step. cbn zeta.
  destruct (func _ _ _ _ _) as [[e|stream] st]; done.
Qed.

(** A file on which [tarfile.is_tarfile] answers no, that is no zip archive
    and whose name ends in neither [.bz2] nor [.gz], is read directly: the
    run is the existence test, the format probe and then precisely the
    direct invocation of the reader on the path. *)
Theorem plain_file_read_directly f fv args kwargs w :
  checks kwargs = true →
  files w !! f = Some fv →
  archive_kind f fv = Some NotAnArchive →
  let o := call func (ArgStr f) args (forwarded kwargs) w in
  run (ArgStr f) args kwargs w =
  Out (outcome o) (final o) (EvExists f :: EvSniff f :: trace o).
Proof.
  intros Hc Hf Hkind. cbn zeta.
  assert (sniffed f fv = inr (Some [])) as Hs.
  { unfold sniffed, extract. unfold archive_kind in Hkind.
    by repeat case_match. }
  by rewrite uncompress_file_unfold, Hc, Hf, Hs.
Qed.

(** When [tarfile.is_tarfile] itself raises (a gzip stream cut short, a
    directory), a checking run ends with that exception right after the
    probe: the reader is not invoked, no temporary file is made, and the
    name of the file plays no part. *)
Theorem probe_error_surfaces f fv what args kwargs w :
  checks kwargs = true →
  files w !! f = Some fv →
  is_tarfile fv = inl what →
  run (ArgStr f) args kwargs w
  = Out (inl (LibraryError what)) w [EvExists f; EvSniff f].
Proof.
  intros Hc Hf Hprobe.
  assert (sniffed f fv = inl what) as Hs.
  { unfold sniffed, extract. by rewrite Hprobe. }
  by rewrite uncompress_file_unfold, Hc, Hf, Hs.
Qed.

End Facts.

Section Instances.

Import Examples MoreExamples.

Abbreviation run_with reader :=
  (uncompress_file (R:=nat) (E:=string) (St:=nat) tmpname add reader).

Lemma run_payloads_in_order_witness :
  let o := run_with failing_reader (ArgStr "two.tar") [] ∅ (world disk) in
  payloads (trace o) `prefix_of` map Some [b "abc"; b "de"] ∧
  payloads (trace o) ≠ [] ∧
  length (created (trace o)) = length (payloads (trace o)) ∧
  (∀ v, outcome o = inr v → payloads (trace o) = map Some [b "abc"; b "de"]).
Proof.
  assert ([b "abc"; b "de"] ≠ []) as Hne by discriminate.
  exact (run_payloads_in_order tmpname add failing_reader "two.tar"
           two_members [b "abc"; b "de"] [] ∅ (world disk)
           eq_refl eq_refl eq_refl Hne).
Defined.

Lemma tar_payloads_have_content_witness :
  let o := run_with size_reader (ArgStr "cut.tar") [] ∅ (world disk) in
  created (trace o) = [] ∨ Forall nonempty_payload (payloads (trace o)).
Proof.
  exact (tar_payloads_have_content tmpname add size_reader "cut.tar"
           truncated_tar [] ∅ (world disk) eq_refl eq_refl eq_refl).
Defined.

Lemma compressed_stream_replayed_once_witness :
  let o := run_with size_reader (ArgStr "data.gz") [] ∅ (world disk) in
  trace o = [EvExists "data.gz"; EvSniff "data.gz";
             EvTmpCreate "/tmp/obspy-0"; EvTmpWrite "/tmp/obspy-0" (b "abcd");
             EvCall (ArgStr "/tmp/obspy-0") [] ∅ (Some (b "abcd"))
               (inr (Some 4));
             EvTmpDelete "/tmp/obspy-0"] ∧
  outcome o = inr (Some 4) ∧
  temps (final o) = delete "/tmp/obspy-0" ∅ ∧
  reader_state (final o) = 1.
Proof.
  exact (compressed_stream_replayed_once tmpname add size_reader "data.gz"
           good_gz (b "abcd") [] ∅ (world disk) eq_refl eq_refl
           (or_introl (conj eq_refl eq_refl))).
Defined.

Lemma zip_members_all_or_none_witness :
  (∃ datas, sniffed "empty.zip" empty_member_zip = inr (Some datas) ∧
            map (λ _ : string, inr [] : string + bytes) ["empty.txt"]
            = map inr datas) ∨
  (sniffed "empty.zip" empty_member_zip = inr (Some []) ∧
   ∃ name what, name ∈ ["empty.txt"] ∧
                (inr [] : string + bytes) = inl what).
Proof.
  exact (zip_members_all_or_none "empty.zip" empty_member_zip
           {| zip_comment := []; zip_namelist := ["empty.txt"];
              zip_read := λ _, inr [] |} eq_refl eq_refl eq_refl).
Defined.

Lemma tar_payloads_are_regular_contents_witness :
  let steps := [TarMember true (inr (b "abc")); TarBroken "ReadError"] in
  sniffed "cut.tar" truncated_tar
    = inr (Some (regular_contents (read_before_failure steps))) ∧
  ∃ r, extract "cut.tar" truncated_tar
         = inr (Some (regular_contents (read_before_failure steps)), r) ∧
       (r = inr () ↔ read_before_failure steps = steps).
Proof.
  exact (tar_payloads_are_regular_contents "cut.tar" truncated_tar
           [TarMember true (inr (b "abc")); TarBroken "ReadError"]
           eq_refl eq_refl).
Defined.

Lemma plain_file_read_directly_witness :
  run_with size_reader (ArgStr "trace.mseed") [] ∅ (world plain_disk) =
  Out (inr (Some 0))
      {| files := plain_disk; temps := ∅; next_tmp := 0; reader_state := 1 |}
      [EvExists "trace.mseed"; EvSniff "trace.mseed";
       EvCall (ArgStr "trace.mseed") [] ∅ None (inr (Some 0))].
Proof.
  exact (plain_file_read_directly tmpname add size_reader "trace.mseed"
           plain [] ∅ (world plain_disk) eq_refl eq_refl eq_refl).
Defined.

Lemma probe_error_surfaces_witness :
  run_with size_reader (ArgStr "cut.gz") [] ∅ (world disk) =
  Out (inl (LibraryError "EOFError")) (world disk)
      [EvExists "cut.gz"; EvSniff "cut.gz"].
Proof.
  exact (probe_error_surfaces tmpname add size_reader "cut.gz" truncated_gz
           "EOFError" [] ∅ (world disk) eq_refl eq_refl eq_refl).
Defined.

End Instances.

End UncompressMore.

(** * Facts about the smaller wrappers *)

Module WrappersFacts.
Import Wrappers.

Section Deprecated.

Context {Args Res : Type}.
Variable lower : string → string.

(** Calling a deprecated function again warns with the same message, and
    its docstring, once set by the first call, does not change any more;
    name and result are those of the wrapped function. *)
Theorem deprecated_message_settles (warning_msg : option string)
    (func : function Args Res) (args args' : Args) :
  let '(msg1, func1, r1) := _deprecated lower warning_msg func args in
  let '(msg2, func2, r2) := _deprecated lower warning_msg func1 args' in
  msg2 = msg1 ∧ func2 = func1 ∧
  name func1 = name func ∧ r1 = body func args ∧ r2 = body func args'.
Proof.
  unfold _deprecated.
  destruct (contains "deprecated" (lower (Keywords.str (doc func)))) eqn:Hdoc.
  { rewrite Hdoc. done. }
  destruct (given warning_msg) eqn:Hgiven; cbn [doc name body].
  - by destruct (contains "deprecated" (lower (Keywords.str warning_msg))).
  - by rewrite Hdoc.
Qed.

(** The warning always has a text, and not the empty one: a docstring is
    only used when it mentions the deprecation. *)
Theorem deprecated_message_not_empty (warning_msg : option string)
    (func : function Args Res) (args : Args) :
  contains "deprecated" (lower "None") = false →
  contains "deprecated" (lower "") = false →
  ∃ msg, (_deprecated lower warning_msg func args).1.1 = Some msg ∧ msg ≠ "".
Proof.
  intros HNone Hempty. unfold _deprecated.
  destruct (contains "deprecated" (lower (Keywords.str (doc func)))) eqn:Hdoc.
  - destruct (doc func) as [d|]; cbn in Hdoc; [|congruence].
    exists d. split; [done|]. intros ->. congruence.
  - destruct warning_msg as [s|]; cbn.
    + destruct (String.eqb_spec s ""); cbn; [by eexists|by exists s].
    + by eexists.
Qed.

End Deprecated.

Section Network.

Context {Args Res X : Type}.
Variable func : Args → raised X + option Res.

(** What the wrapper raises is an exception of the wrapped function that is
    no socket error, unchanged: a socket error never gets out. *)
Theorem network_errors_never_propagate (args : Args) e :
  skip_on_network_error func args = Raising e →
  ∃ x, e = OtherException x ∧ func args = inl (OtherException x).
Proof.
  unfold skip_on_network_error.
  destruct (func args) as [[text|text|x]|v]; try done.
  - by destruct (String.eqb text "timed out").
  - by destruct (String.eqb text "[Errno 110] Connection timed out").
  - intros [= <-]. by exists x.
Qed.

(** A socket error leads to a skip only with the one text that goes with
    its kind; with any other text, also a timeout worded as errno 110, it is
    swallowed and the wrapper returns [None].  The wrapper returns a value
    in two cases only: the wrapped function returned that very value
    ([None] included), or the value is [None] and a socket error was
    swallowed. *)
Theorem network_errors_skipped_or_swallowed (args : Args) :
  (∀ reason,
     skip_on_network_error func args = Skipped reason ↔
     (func args = inl (SocketTimeout reason) ∧ reason = "timed out") ∨
     (func args = inl (SocketError reason) ∧
      reason = "[Errno 110] Connection timed out")) ∧
  (∀ v,
     skip_on_network_error func args = Returned v ↔
     func args = inr v ∨
     (v = None ∧
      ∃ text,
        (func args = inl (SocketTimeout text) ∧ text ≠ "timed out") ∨
        (func args = inl (SocketError text) ∧
         text ≠ "[Errno 110] Connection timed out"))).
Proof.
  unfold skip_on_network_error.
  destruct (func args) as [[text|text|x]|v'].
  - destruct (String.eqb_spec text "timed out") as [->|Hne]; split.
    + intros reason. split; [intros [= <-]; by left|].
      by intros [[[= <-] _]|[[=] _]].
    + intros v. split; [done|].
      by intros [[=]|[_ (text & [[[= <-] ?]|[[=] _]])]].
    + intros reason. split; [done|].
      by intros [[[= <-] ?]|[[=] _]].
    + intros v. split.
      * intros [= <-]. right. split; [done|]. exists text. by left.
      * by intros [[=]|[-> _]].
  - destruct (String.eqb_spec text "[Errno 110] Connection timed out")
      as [->|Hne]; split.
    + intros reason. split; [intros [= <-]; by right|].
      by intros [[[=] _]|[[= <-] _]].
    + intros v. split; [done|].
      by intros [[=]|[_ (text & [[[=] _]|[[= <-] ?]])]].
    + intros reason. split; [done|].
      by intros [[[=] _]|[[= <-] ?]].
    + intros v. split.
      * intros [= <-]. right. split; [done|]. exists text. by right.
      * by intros [[=]|[-> _]].
  - split; [intros reason|intros v]; split; try done.
    + by intros [[[=] _]|[[=] _]].
    + by intros [[=]|[_ (text & [[[=] _]|[[=] _]])]].
  - split; [intros reason|intros v]; split; try done.
    + by intros [[[=] _]|[[=] _]].
    + intros [= <-]. by left.
    + intros [[= <-]|[_ (text & [[[=] _]|[[=] _]])]]. done.
Qed.

End Network.

Section MapExample.

Context {Res : Type}.
Variable get_example_file : string → string + string.
Variable inspected_args : list string.

Lemma substring_whole (s : string) : substring 0 (String.length s) s = s.
Proof. induction s as [|c s IH]; cbn; [done|by rewrite IH]. Qed.

(** The 9 of [s[9:]] is the length of the prefix: what is looked up is what
    follows [/path/to/]. *)
Lemma from_9_prefix (rest : string) :
  re_match (prefix +:+ rest) = true ∧ from_9 (prefix +:+ rest) = rest.
Proof.
  split.
  - unfold re_match, prefix. cbn.
    repeat (destruct (ascii_dec _ _); [|done]). by destruct rest.
  - unfold from_9, prefix. cbv [String.append]. cbn.
    rewrite Nat.sub_0_r. apply substring_whole.
Qed.

Lemma re_match_inv (s : string) :
  re_match s = true → s = prefix +:+ from_9 s.
Proof.
  unfold re_match, prefix, from_9. intros Hm.
  do 9 (destruct s as [|? s]; [discriminate|]; cbn [String.prefix] in Hm;
        destruct (ascii_dec _ _) as [<-|]; [|discriminate]).
  cbv [String.append]. cbn. by rewrite Nat.sub_0_r, substring_whole.
Qed.

(** An argument is replaced exactly when it is a [str] that starts with
    [/path/to/] and whose remainder names an example file. *)
Lemma mapped_spec (v v' : pyval) :
  mapped get_example_file v = Some v' ↔
  ∃ rest path, v = PyStr (prefix +:+ rest) ∧
               get_example_file rest = inr path ∧ v' = PyStr path.
Proof.
  split.
  - destruct v as [| | |s]; cbn; try done.
    destruct (re_match s) eqn:Hm; [|done].
    destruct (get_example_file (from_9 s)) as [|path] eqn:Hfile; [done|].
    intros [= <-]. exists (from_9 s), path. by rewrite <- re_match_inv.
  - intros (rest & path & -> & Hfile & ->). cbn.
    destruct (from_9_prefix rest) as [-> ->]. by rewrite Hfile.
Qed.

(** A [/path/to/] argument that names an example file is replaced by the
    path of that file, as a keyword and as a positional argument; the file
    asked for is what follows the prefix. *)
Theorem example_path_resolved (name : string)
    (func : list pyval → Keywords.dict pyval → Res) args kwargs rest path :
  get_example_file rest = inr path →
  (Keywords.dget name kwargs = Some (PyStr (prefix +:+ rest)) →
   _map_example_filename get_example_file inspected_args name func args kwargs
   = func args (Keywords.dset name (PyStr path) kwargs)) ∧
  (∀ ind, Keywords.dmem name kwargs = false →
          index name inspected_args = Some ind →
          args !! ind = Some (PyStr (prefix +:+ rest)) →
   _map_example_filename get_example_file inspected_args name func args kwargs
   = func (<[ind := PyStr path]> args) kwargs).
Proof.
  intros Hfile.
  assert (mapped get_example_file (PyStr (prefix +:+ rest))
          = Some (PyStr path)) as Hmapped
    by (apply mapped_spec; by exists rest, path).
  unfold _map_example_filename, map_arguments. split.
  - intros Hget. unfold Keywords.dmem. rewrite Hget. cbn [mbind option_bind].
    by rewrite Hmapped.
  - intros ind -> -> ->. cbn [mbind option_bind]. by rewrite Hmapped.
Qed.

Lemma dkeys_dset (k : string) (v : pyval) (d : Keywords.dict pyval) :
  Keywords.dmem k d = true →
  Keywords.dkeys (Keywords.dset k v d) = Keywords.dkeys d.
Proof.
  unfold Keywords.dmem, Keywords.dkeys.
  induction d as [|[k' v'] d IH]; cbn; [done|].
  destruct (String.eqb_spec k k'); [done|]. intros Hmem. cbn. f_equal.
  by apply IH.
Qed.

(** The wrapped function is called with as many positional arguments and
    with the same keywords in the same order; only the value of the named
    argument can differ, and when the name is among the keywords the
    positional arguments are not looked at. *)
Theorem map_arguments_frame (name : string) args kwargs :
  let '(args', kwargs') :=
    map_arguments get_example_file inspected_args name args kwargs in
  length args' = length args ∧
  Keywords.dkeys kwargs' = Keywords.dkeys kwargs ∧
  (∀ k, k ≠ name → Keywords.dget k kwargs' = Keywords.dget k kwargs) ∧
  (∀ i, index name inspected_args ≠ Some i → args' !! i = args !! i) ∧
  (Keywords.dmem name kwargs = true → args' = args) ∧
  (Keywords.dmem name kwargs = false → kwargs' = kwargs).
Proof.
  unfold map_arguments.
  destruct (Keywords.dmem name kwargs) eqn:Hmem.
  - destruct (Keywords.dget name kwargs ≫= mapped get_example_file) as [v|];
      [|done].
    split_and!; try done.
    + by apply dkeys_dset.
    + intros k Hk. rewrite KeywordsFacts.dget_dset. by rewrite decide_False.
  - destruct (index name inspected_args) as [ind|]; [|done].
    destruct (args !! ind ≫= mapped get_example_file) as [v|]; [|done].
    split_and!; try done.
    + apply length_insert.
    + intros i Hi. apply list_lookup_insert_ne. congruence.
Qed.

(** Nothing else is replaced: when the wrapped function is called with other
    arguments than the call had, the named argument was a [/path/to/] string
    whose remainder names an example file. *)
Theorem only_example_paths_replaced (name : string) args kwargs :
  map_arguments get_example_file inspected_args name args kwargs
  ≠ (args, kwargs) →
  ∃ rest path,
    get_example_file rest = inr path ∧
    (Keywords.dget name kwargs = Some (PyStr (prefix +:+ rest)) ∨
     ∃ ind, Keywords.dmem name kwargs = false ∧
            index name inspected_args = Some ind ∧
            args !! ind = Some (PyStr (prefix +:+ rest))).
Proof.
  unfold map_arguments.
  destruct (Keywords.dmem name kwargs) eqn:Hmem.
  - destruct (Keywords.dget name kwargs) as [v|]; cbn; [|done].
    destruct (mapped get_example_file v) as [v'|] eqn:Hmapped; [|done].
    apply mapped_spec in Hmapped as (rest & path & -> & Hfile & _).
    intros _. exists rest, path. split; [done|by left].
  - destruct (index name inspected_args) as [ind|]; [|done].
    destruct (args !! ind) as [v|] eqn:Hv; cbn; [|done].
    destruct (mapped get_example_file v) as [v'|] eqn:Hmapped; [|done].
    apply mapped_spec in Hmapped as (rest & path & -> & Hfile & _).
    intros _. exists rest, path. split; [done|]. right. by exists ind.
Qed.

End MapExample.

Section Instances.

Import MoreExamples.

Lemma deprecated_message_not_empty_witness :
  ∃ msg,
    (_deprecated lower (Some "Use thrice instead.") twice 3).1.1 = Some msg ∧
    msg ≠ "".
Proof.
  apply (deprecated_message_not_empty lower (Some "Use thrice instead.")
           twice 3); reflexivity.
Defined.

Lemma network_errors_never_propagate_witness :
  ∃ x, OtherException "ValueError" = OtherException x ∧
       crashing 0 = inl (OtherException x).
Proof.
  exact (network_errors_never_propagate crashing 0
           (OtherException "ValueError") eq_refl).
Defined.

Lemma example_path_resolved_witness :
  _map_example_filename get_example_file ["filename"; "format"] "filename"
    (λ args kwargs, (args, kwargs)) []
    [("filename", PyStr "/path/to/test.mseed")] =
  ([], [("filename", PyStr "/usr/share/obspy/test.mseed")]) ∧
  _map_example_filename get_example_file ["filename"; "format"] "filename"
    (λ args kwargs, (args, kwargs)) [PyStr "/path/to/test.mseed"] [] =
  ([PyStr "/usr/share/obspy/test.mseed"], []).
Proof.
  split.
  - exact (proj1 (example_path_resolved get_example_file
             ["filename"; "format"] "filename" (λ args kwargs, (args, kwargs))
             [] [("filename", PyStr "/path/to/test.mseed")]
             "test.mseed" "/usr/share/obspy/test.mseed" eq_refl) eq_refl).
  - exact (proj2 (example_path_resolved get_example_file
             ["filename"; "format"] "filename" (λ args kwargs, (args, kwargs))
             [PyStr "/path/to/test.mseed"] []
             "test.mseed" "/usr/share/obspy/test.mseed" eq_refl)
             0 eq_refl eq_refl eq_refl).
Defined.

Lemma only_example_paths_replaced_witness :
  ∃ rest path,
    get_example_file rest = inr path ∧
    (Keywords.dget "filename" ([] : Keywords.dict pyval) =
       Some (PyStr (prefix +:+ rest)) ∨
     ∃ ind, Keywords.dmem "filename" ([] : Keywords.dict pyval) = false ∧
            index "filename" ["filename"; "format"] = Some ind ∧
            [PyStr "/path/to/test.mseed"] !! ind =
              Some (PyStr (prefix +:+ rest))).
Proof.
  apply (only_example_paths_replaced get_example_file ["filename"; "format"]
           "filename" [PyStr "/path/to/test.mseed"] []).
  intros Heq. vm_compute in Heq. discriminate.
Defined.

End Instances.

End WrappersFacts.

(** * Facts about the JSON default function *)

Module JsonFacts.
Import Json.



(** For a [Catalog] the result has, of the five attributes and in their
    order, those with a true value, whatever [omit_nulls] and the time
    format are; an attribute that is 0 or [False] is left out here. *)
Theorem catalog_attributes OMIT_NULLS TIME_FORMAT getattr :
  ∃ kept,
    default_call OMIT_NULLS TIME_FORMAT (Catalog getattr)
    = inr (JDict kept) ∧
    sublist (map fst kept) _catalog_attrib ∧
    ∀ k v, In (k, v) kept ↔
           In k _catalog_attrib ∧ v = getattr k ∧ truth v = true.
Proof.
  eexists. split; [reflexivity|]. split.
  - rewrite map_map. cbn [fst]. rewrite map_id.
    generalize _catalog_attrib. intros l.
    induction l as [|k l IH]; cbn; [done|].
    destruct (truth (getattr k)); by constructor.
  - intros k v. rewrite in_map_iff. split.
    + intros (k' & [= <- <-] & [Hin Ht]%filter_In). done.
    + intros (Hin & -> & Ht). exists k. split; [done|].
      by apply filter_In.
Qed.

End JsonFacts.
